(** * Vanity import handler: path resolution and configuration build

    A shallow embedding of the Go package [handler]
    (KrishnaIyer/go-vanity-cloud-function): the configuration build
    [InitHandler], the path resolver [pathConfigSet.find] and the request
    dispatch [HandleImport], followed by the properties of the
    specification that were checked against them.

    Go strings are byte sequences compared bytewise, which is what
    [string], [String.compare] and [String.ltb] of the Standard Library
    are.  Slices are lists; a pointer [&pset[k]] into a slice is the index
    [k] together with the element stored there. *)

From Stdlib Require Import String Ascii List Arith Lia ZArith Bool.
From Stdlib Require Import Sorted Permutation OrderedTypeEx DecimalString.
Import ListNotations.

Local Open Scope list_scope.
Local Open Scope string_scope.
Local Open Scope nat_scope.

(** ** The parts of Go's [strings] package the handler calls *)

Module GoStrings.

(** [s[n:]]; every call site guards [n <= len(s)]. *)
Fixpoint slice_from (n : nat) (s : string) : string :=
  match n, s with
  | 0, _ => s
  | S _, EmptyString => EmptyString
  | S n', String _ s' => slice_from n' s'
  end.

(** [s[:n]] *)
Definition slice_to (n : nat) (s : string) : string := substring 0 n s.

Definition HasPrefix (s prefix : string) : bool := String.prefix prefix s.

Definition HasSuffix (s suffix : string) : bool :=
  (String.length suffix <=? String.length s)
  && String.eqb (slice_from (String.length s - String.length suffix) s) suffix.

Definition TrimPrefix (s prefix : string) : string :=
  if HasPrefix s prefix then slice_from (String.length prefix) s else s.

Definition TrimSuffix (s suffix : string) : string :=
  if HasSuffix s suffix
  then slice_to (String.length s - String.length suffix) s
  else s.

(** The comparison operators of Go on strings. *)
Definition lt (a b : string) : bool := String.ltb a b.
Definition ge (a b : string) : bool := negb (String.ltb a b).

End GoStrings.

(** ** The parts of Go's [sort] package the handler calls *)

Module GoSort.

(** [sort.Search]: the loop [for i < j] with [h := int(uint(i+j) >> 1)].
    The distance [j - i] shrinks at every turn, so [n] turns are always
    enough and the fuel never cuts the loop short
    (see [search_loop_fuel] below). *)
Fixpoint search_loop (fuel : nat) (f : nat -> bool) (i j : nat) : nat :=
  match fuel with
  | 0 => i
  | S fuel' =>
      if i <? j then
        let h := (i + j) / 2 in
        if negb (f h)
        then search_loop fuel' f (h + 1) j
        else search_loop fuel' f i h
      else i
  end.

Definition Search (n : nat) (f : nat -> bool) : nat := search_loop n f 0 n.

(** [sort.Sort] promises a permutation of its argument in which no
    element is [Less] than an earlier one, and nothing about the order
    of equal elements.  It is modelled by the insertion sort the library
    runs on short slices (up to 12 elements); on longer slices the
    library may order equal elements differently.  The general statements
    below rest on the promise only ([Sort_perm], [Sort_sorted]). *)
Section Sort.
Context {A : Type} (less : A -> A -> bool).

Fixpoint insert (x : A) (l : list A) : list A :=
  match l with
  | [] => [x]
  | y :: l' => if less x y then x :: y :: l' else y :: insert x l'
  end.

Definition Sort (l : list A) : list A :=
  fold_left (fun sorted x => insert x sorted) l [].
End Sort.

End GoSort.

(** ** Data model *)

(** The anonymous struct of one [paths] value of the YAML document. *)
Record pathSpec := {
  Repo : string;
  Display : string;
  VCS : string
}.

(** [config]: [CacheAge] is a [*int64], [Paths] a Go map.  [range] visits
    a map in an unspecified order: [Paths] lists the pairs in the order in
    which one run of the loop visits them, and every statement about the
    build quantifies over that order.  The keys of a map are distinct;
    where a statement needs it, it says so. *)
Record config := {
  Host : string;
  CacheAge : option Z;
  Paths : list (string * pathSpec)
}.

Record pathConfig := {
  path : string;
  repo : string;
  display : string;
  vcs : string
}.

Definition pathConfigSet := list pathConfig.

Record Handler := {
  host : string;
  cacheControl : string;
  paths : pathConfigSet
}.

(** The two fields of [*http.Request] the handler reads. *)
Record Request := {
  URL_Path : string;
  Request_Host : string
}.

(** What [HandleImport] sends: the data handed to [indexTemplate], a 404,
    or the [Cache-Control] header and the data handed to [vanityTemplate].
    Writing the rendered template to the connection belongs to
    [html/template] and [net/http]. *)
Inductive response :=
| ServeIndex (Host : string) (Handlers : list string)
| NotFound
| ServeVanity (CacheControl : string)
              (Import_ Subpath Repo_ Display_ VCS_ : string).

(** The errors [InitHandler] returns. *)
Inductive error :=
| CouldNotFetch
| BadStatus (code : Z)
| CouldNotRead
| EmptyConfigFile
| CouldNotParse
| NegativeCacheAge
| UnknownVCS (key vcs_ : string)
| CannotInferVCS (key repo_ : string).

(** What the collaborators of [InitHandler] answer during one call:
    [client.Get] (the status code, or [None] for a transport error),
    [ioutil.ReadAll] (the body, or [None]) and [yaml.Unmarshal] on that
    body (the document, or [None]). *)
Record external := {
  Get : option Z;
  ReadAll : option string;
  Unmarshal : option config
}.

(** ** The global handler as state

    [InitHandler] assigns to the fields of the package variable [handler]
    and may return an error afterwards: a computation takes the handler
    and gives back the handler it leaves behind together with its result
    or its error. *)

Definition M (A : Type) : Type := Handler -> (error + A) * Handler.

Definition ret {A} (a : A) : M A := fun h => (inr a, h).

Definition fail {A} (e : error) : M A := fun h => (inl e, h).

Definition bind {A B} (m : M A) (k : A -> M B) : M B :=
  fun h =>
    match m h with
    | (inl e, h') => (inl e, h')
    | (inr a, h') => k a h'
    end.

Definition modify (f : Handler -> Handler) : M unit := fun h => (inr tt, f h).

Declare Scope handler_scope.
Delimit Scope handler_scope with handler.
Notation "x <- m ;; k" := (bind m (fun x => k))
  (at level 61, m at next level, right associativity) : handler_scope.
Notation "m ;; k" := (bind m (fun _ => k))
  (at level 61, right associativity) : handler_scope.

Definition set_host (s : string) : M unit :=
  modify (fun h => {| host := s; cacheControl := cacheControl h; paths := paths h |}).

Definition set_cacheControl (s : string) : M unit :=
  modify (fun h => {| host := host h; cacheControl := s; paths := paths h |}).

Definition set_paths (f : pathConfigSet -> pathConfigSet) : M unit :=
  modify (fun h => {| host := host h; cacheControl := cacheControl h; paths := f (paths h) |}).

(** ** [pathConfigSet] as a [sort.Interface] *)

Definition Len (pset : pathConfigSet) : nat := length pset.

Definition less (a b : pathConfig) : bool := GoStrings.lt (path a) (path b).

(** [pset.Less(i, j)]; [None] stands for the index-out-of-range panic. *)
Definition Less (pset : pathConfigSet) (i j : nat) : option bool :=
  match nth_error pset i, nth_error pset j with
  | Some a, Some b => Some (less a b)
  | _, _ => None
  end.

(** [l[i] = x] on a slice, for [i] in range. *)
Fixpoint set_at (l : pathConfigSet) (i : nat) (x : pathConfig) : pathConfigSet :=
  match l, i with
  | [], _ => []
  | _ :: l', 0 => x :: l'
  | y :: l', S i' => y :: set_at l' i' x
  end.

(** [pset.Swap(i, j)]: both right-hand sides are read, then [pset[i]] and
    [pset[j]] are assigned; [None] stands for the index-out-of-range
    panic. *)
Definition Swap (pset : pathConfigSet) (i j : nat) : option pathConfigSet :=
  match nth_error pset i, nth_error pset j with
  | Some a, Some b => Some (set_at (set_at pset i b) j a)
  | _, _ => None
  end.

(** ** [InitHandler] *)

Definition github : string := "https://github.com/".
Definition bitbucket : string := "https://bitbucket.org".

(** [fmt.Sprintf] with [%d] on an [int64]. *)
Definition format_d (n : Z) : string := NilZero.string_of_int (Z.to_int n).

(** The first [switch]: the display template. *)
Definition inferDisplay (e : pathSpec) : string :=
  if negb (String.eqb (Display e) "") then Display e
  else if GoStrings.HasPrefix (Repo e) github then
    Repo e ++ " " ++ Repo e ++ "/tree/master{/dir} "
           ++ Repo e ++ "/blob/master{/dir}/{file}#L{line}"
  else if GoStrings.HasPrefix (Repo e) bitbucket then
    Repo e ++ " " ++ Repo e ++ "/src/default{/dir} "
           ++ Repo e ++ "/src/default{/dir}/{file}#{file}-{line}"
  else Display e.

Definition knownVCS (v : string) : bool :=
  String.eqb v "bzr" || String.eqb v "git" || String.eqb v "hg" || String.eqb v "svn".

(** The second [switch]: the VCS, or the error that ends the build. *)
Definition inferVCS (key : string) (e : pathSpec) : error + string :=
  if negb (String.eqb (VCS e) "") then
    if negb (knownVCS (VCS e)) then inl (UnknownVCS key (VCS e)) else inr (VCS e)
  else if GoStrings.HasPrefix (Repo e) github then inr "git"
  else inl (CannotInferVCS key (Repo e)).

(** The [pathConfig] the loop body builds for one key. *)
Definition stored (key : string) (e : pathSpec) (v : string) : pathConfig :=
  {| path := GoStrings.TrimSuffix key "/";
     repo := Repo e;
     display := inferDisplay e;
     vcs := v |}.

(** The body of [for path, e := range config.Paths]. *)
Definition rangeBody (key : string) (e : pathSpec) : M unit :=
  match inferVCS key e with
  | inl err => fail err
  | inr v => set_paths (fun ps => (ps ++ [stored key e v])%list)
  end.

Fixpoint rangePaths (kvs : list (string * pathSpec)) : M unit :=
  match kvs with
  | [] => ret tt
  | (key, e) :: rest => (rangeBody key e ;; rangePaths rest)%handler
  end.

(** [InitHandler] from [handler.host = config.Host] on: what it does with
    the parsed document. *)
Definition configure (config : config) : M unit :=
  (set_host (Host config) ;;
   cacheAge <- match CacheAge config with
               | Some a => if (a <? 0)%Z then fail NegativeCacheAge else ret a
               | None => ret 86400%Z
               end ;;
   set_cacheControl ("public, max-age=" ++ format_d cacheAge) ;;
   rangePaths (Paths config) ;;
   set_paths (GoSort.Sort less))%handler.

Definition InitHandler (ext : external) : M unit :=
  match Get ext with
  | None => fail CouldNotFetch
  | Some code =>
      if negb (code =? 200)%Z then fail (BadStatus code) else
      match ReadAll ext with
      | None => fail CouldNotRead
      | Some raw =>
          if String.length raw =? 0 then fail EmptyConfigFile else
          match Unmarshal ext with
          | None => fail CouldNotParse
          | Some config => configure config
          end
      end
  end.

(** ** [pathConfigSet.find] *)

(** The slow path: the loop [for i := 0; i < max; i++], started at index
    [k] on the elements from [k] on, carrying [bestMatchConfig],
    [subpath] and [lenShortestSubpath]. *)
Fixpoint findLoop (path_ : string) (pset : pathConfigSet) (k : nat)
         (best : option (nat * pathConfig)) (subpath : string)
         (lenShortestSubpath : nat) : option (nat * pathConfig) * string :=
  match pset with
  | [] => (best, subpath)
  | ps :: rest =>
      if String.length path_ <=? String.length (path ps) then
        findLoop path_ rest (S k) best subpath lenShortestSubpath
      else
        let sSubpath := GoStrings.TrimPrefix path_ (path ps) in
        if String.length sSubpath <? lenShortestSubpath then
          findLoop path_ rest (S k) (Some (k, ps)) sSubpath (String.length sSubpath)
        else
          findLoop path_ rest (S k) best subpath lenShortestSubpath
  end.

(** The predicate handed to [sort.Search], and the index it returns. *)
Definition searchPred (pset : pathConfigSet) (path_ : string) (i : nat) : bool :=
  match nth_error pset i with
  | Some e => GoStrings.ge (path e) path_
  | None => false
  end.

Definition searchIndex (pset : pathConfigSet) (path_ : string) : nat :=
  GoSort.Search (length pset) (searchPred pset path_).

(** [find]: the exact match at the index found, then the entry just
    before it, then the slow path over the entries before it.  The index
    found is at most [len(pset)] ([Search_le]): [nth_error pset i] is
    [None] exactly when [i < len(pset)] fails, and [pset[i-1]] is always
    in range. *)
Definition find (pset : pathConfigSet) (path_ : string)
  : option (nat * pathConfig) * string :=
  let i := searchIndex pset path_ in
  let exact := match nth_error pset i with
               | Some e => if String.eqb (path e) path_ then Some e else None
               | None => None
               end in
  match exact with
  | Some e => (Some (i, e), "")
  | None =>
      let before := match i with
                    | S j =>
                        match nth_error pset j with
                        | Some e =>
                            if GoStrings.HasPrefix path_ (path e ++ "/")
                            then Some (j, e) else None
                        | None => None
                        end
                    | 0 => None
                    end in
      match before with
      | Some (j, e) => (Some (j, e), GoStrings.slice_from (String.length (path e) + 1) path_)
      | None => findLoop path_ (firstn i pset) 0 None "" (String.length path_)
      end
  end.

(** ** [Handler.Host], [serveIndex] and [HandleImport] *)

Definition Handler_Host (h : Handler) (r : Request) : string :=
  if String.eqb (host h) "" then Request_Host r else host h.

Definition serveIndex (h : Handler) (r : Request) : response :=
  let host_ := Handler_Host h r in
  ServeIndex host_ (map (fun e => host_ ++ path e) (paths h)).

Definition HandleImport (handler : Handler) (r : Request) : response :=
  let current := URL_Path r in
  match find (paths handler) current with
  | (None, _) => if String.eqb current "/" then serveIndex handler r else NotFound
  | (Some (_, pc), subpath) =>
      ServeVanity (cacheControl handler)
                  (Handler_Host handler r ++ path pc) subpath
                  (repo pc) (display pc) (vcs pc)
  end.

(** ** [init]

    The package variable [handler] starts as the zero [Handler]; [init]
    calls [InitHandler] on it and drops the error. *)
Definition zeroHandler : Handler := {| host := ""; cacheControl := ""; paths := [] |}.

Definition init (ext : external) : Handler := snd (InitHandler ext zeroHandler).

(** ** Vocabulary of the statements *)

(** The order [sort.Sort] leaves behind: no element is [Less] than an
    earlier one. *)
Definition path_le (a b : pathConfig) : Prop :=
  String.leb (path a) (path b) = true.

Definition sorted (pset : pathConfigSet) : Prop := StronglySorted path_le pset.

(** Prefix-ancestor: the request equals the entry's path or continues it
    after a [/]. *)
Definition ancestor (p request : string) : bool :=
  String.eqb p request || GoStrings.HasPrefix request (p ++ "/").

(** The first branch of [find] does not answer: the entry at the index
    found, if there is one, has another path than the request. *)
Definition noExact (pset : pathConfigSet) (R : string) : Prop :=
  forall e, nth_error pset (searchIndex pset R) = Some e -> path e <> R.

(** The entries the loop of [InitHandler] accepts. *)
Definition validEntry (kv : string * pathSpec) : bool :=
  match inferVCS (fst kv) (snd kv) with
  | inr _ => true
  | inl _ => false
  end.

(** The entries the loop visits and accepts before the first one it
    rejects (all of them when none is rejected). *)
Fixpoint acceptedPrefix (kvs : list (string * pathSpec)) : list (string * pathSpec) :=
  match kvs with
  | [] => []
  | kv :: rest => if validEntry kv then kv :: acceptedPrefix rest else []
  end.

(** What the loop appends for an accepted entry. *)
Definition storedEntry (kv : string * pathSpec) : pathConfig :=
  stored (fst kv) (snd kv)
         (match inferVCS (fst kv) (snd kv) with inr v => v | inl _ => "" end).

(** The collaborators hand the document [c] to [InitHandler]. *)
Definition delivers (ext : external) (c : config) : Prop :=
  Get ext = Some 200%Z /\
  (exists raw, ReadAll ext = Some raw /\ String.length raw <> 0) /\
  Unmarshal ext = Some c.

Definition cacheAgeOK (c : config) : Prop :=
  match CacheAge c with Some a => (0 <= a)%Z | None => True end.

Definition cacheAgeOf (c : config) : Z :=
  match CacheAge c with Some a => a | None => 86400%Z end.

Definition with_paths (h : Handler) (ps : pathConfigSet) : Handler :=
  {| host := host h; cacheControl := cacheControl h; paths := ps |}.

(** The handler once [host] and [cacheControl] are assigned from [c]. *)
Definition assigned (c : config) (h : Handler) : Handler :=
  {| host := Host c;
     cacheControl := "public, max-age=" ++ format_d (cacheAgeOf c);
     paths := paths h |}.

(** The errors returned before [handler.host = config.Host] is reached. *)
Definition beforeAssignment (err : error) : bool :=
  match err with
  | CouldNotFetch | BadStatus _ | CouldNotRead | EmptyConfigFile | CouldNotParse => true
  | NegativeCacheAge | UnknownVCS _ _ | CannotInferVCS _ _ => false
  end.

(** ** Small configurations used below *)

Definition entry (p : string) : pathConfig :=
  {| path := p; repo := github ++ "org/x"; display := ""; vcs := "git" |}.

Definition onGithub (name : string) : pathSpec :=
  {| Repo := github ++ name; Display := ""; VCS := "" |}.

Definition served (c : config) : external :=
  {| Get := Some 200%Z; ReadAll := Some "paths: ..."; Unmarshal := Some c |}.

Definition document (kvs : list (string * pathSpec)) : config :=
  {| Host := "go.example.com"; CacheAge := None; Paths := kvs |}.

Definition empty : Handler := {| host := ""; cacheControl := ""; paths := [] |}.

(** The handler a cold start builds from the document [c]. *)
Definition built (c : config) : Handler := snd (InitHandler (served c) empty).

Definition request (p : string) : Request :=
  {| URL_Path := p; Request_Host := "go.example.com" |}.

Definition abcOnly : config := document [("/abc", onGithub "org/abc")].

Definition abcAndDash : config :=
  document [("/abc", onGithub "org/abc"); ("/abc-x", onGithub "org/abc-x")].

Definition nested : config :=
  document [("/a", onGithub "org/a"); ("/a/b", onGithub "org/b")].

Definition rootAndDash : config :=
  document [("/", onGithub "org/root"); ("-x", onGithub "org/x")].

Definition twoKeys : config :=
  document [("/a", onGithub "org/a"); ("/a/", onGithub "org/b")].

Definition published : Handler :=
  {| host := "go.example.com";
     cacheControl := "public, max-age=86400";
     paths := [entry "/lib"] |}.

Definition secondEntryBad : config :=
  {| Host := "other.example.org";
     CacheAge := Some 60%Z;
     Paths := [("/a", onGithub "org/a");
               ("/b", {| Repo := "https://example.com/b"; Display := ""; VCS := "" |})] |}.

Definition noRepo : config :=
  document [("/x", {| Repo := ""; Display := ""; VCS := "git" |})].

Definition onBitbucket : pathSpec :=
  {| Repo := "https://bitbucket.org/org/x"; Display := ""; VCS := "" |}.

(** The rule of the second [switch], spelled out: an explicit recognized
    VCS, or no VCS and a GitHub repository. *)
Definition accepted (e : pathSpec) : Prop :=
  knownVCS (VCS e) = true
  \/ (VCS e = "" /\ GoStrings.HasPrefix (Repo e) github = true).

(** The VCS stored for an accepted entry. *)
Definition storedVCS (e : pathSpec) : string :=
  if String.eqb (VCS e) "" then "git" else VCS e.

Definition string_le (a b : string) : Prop := String.leb a b = true.

(** * Properties *)

(** ** Byte order on strings *)

Lemma ge_leb (a b : string) : GoStrings.ge a b = String.leb b a.
Proof.
  unfold GoStrings.ge, String.ltb, String.leb.
  rewrite (String.compare_antisym b a).
  destruct (String.compare a b); reflexivity.
Qed.

Lemma ltb_lt (a b : string) : String.ltb a b = true <-> String_as_OT.lt a b.
Proof.
  rewrite <- String_as_OT.cmp_lt. unfold String.ltb, String_as_OT.cmp.
  destruct (String.compare a b); split; intro H; congruence.
Qed.

Lemma leb_cases (a b : string) :
  String.leb a b = true <-> a = b \/ String.ltb a b = true.
Proof.
  unfold String.leb, String.ltb.
  destruct (String.compare a b) eqn:E; split; intro H; auto; try discriminate.
  - left. now apply String.compare_eq_iff.
  - destruct H as [H | H]; [subst | discriminate].
    assert (String_as_OT.cmp b b = Eq) as E' by now apply String_as_OT.cmp_eq.
    unfold String_as_OT.cmp in E'. congruence.
Qed.

Lemma leb_refl (a : string) : String.leb a a = true.
Proof. apply leb_cases. now left. Qed.

Lemma leb_trans (a b c : string) :
  String.leb a b = true -> String.leb b c = true -> String.leb a c = true.
Proof.
  rewrite !leb_cases. intros [-> | Hab] [-> | Hbc]; auto.
  right. apply ltb_lt. apply String_as_OT.lt_trans with b; now apply ltb_lt.
Qed.

Lemma ltb_leb (a b : string) : String.ltb a b = true -> String.leb a b = true.
Proof. intro H. apply leb_cases. now right. Qed.

Lemma ltb_false_leb (a b : string) : String.ltb a b = false -> String.leb b a = true.
Proof. intro H. rewrite <- ge_leb. unfold GoStrings.ge. now rewrite H. Qed.

Lemma ltb_irrefl (a : string) : String.ltb a a = false.
Proof.
  destruct (String.ltb a a) eqn:E; trivial.
  apply ltb_lt in E. apply String_as_OT.lt_not_eq in E. now elim E.
Qed.

(** ** Prefixes, slices and the byte order *)

Lemma length_append (a b : string) :
  String.length (a ++ b) = String.length a + String.length b.
Proof. induction a as [| c a IH]; simpl; [reflexivity | now rewrite IH]. Qed.

Lemma prefix_append (a b : string) : String.prefix a (a ++ b) = true.
Proof.
  induction a as [| c a IH]; simpl; [now destruct b |].
  destruct (Ascii.ascii_dec c c); [exact IH | contradiction].
Qed.

Lemma slice_from_append (a b : string) :
  GoStrings.slice_from (String.length a) (a ++ b) = b.
Proof. induction a as [| c a IH]; simpl; [reflexivity | exact IH]. Qed.

(** [HasPrefix s p] says that [s] is [p] followed by [s[len(p):]]. *)
Lemma HasPrefix_split (s p : string) :
  GoStrings.HasPrefix s p = true ->
  s = p ++ GoStrings.slice_from (String.length p) s.
Proof.
  unfold GoStrings.HasPrefix. revert s.
  induction p as [| c p IH]; intros s H; simpl; [reflexivity |].
  destruct s as [| d s]; simpl in H; [discriminate |].
  destruct (Ascii.ascii_dec c d) as [<- | Hne]; [| discriminate].
  simpl. now rewrite <- (IH s H).
Qed.

Lemma HasPrefix_append (p s : string) : GoStrings.HasPrefix (p ++ s) p = true.
Proof. apply prefix_append. Qed.

Lemma HasPrefix_refl (s : string) : GoStrings.HasPrefix s s = true.
Proof.
  unfold GoStrings.HasPrefix. induction s as [| c s IH]; simpl; [reflexivity |].
  destruct (Ascii.ascii_dec c c); [exact IH | contradiction].
Qed.

Lemma HasPrefix_length (s p : string) :
  GoStrings.HasPrefix s p = true ->
  String.length s
  = String.length p + String.length (GoStrings.slice_from (String.length p) s).
Proof.
  intro H. rewrite (HasPrefix_split s p H) at 1. apply length_append.
Qed.

Lemma append_assoc (a b c : string) : (a ++ b) ++ c = a ++ (b ++ c).
Proof. induction a as [| x a IH]; simpl; [reflexivity | now rewrite IH]. Qed.

Lemma TrimPrefix_length (s p : string) :
  String.length (GoStrings.TrimPrefix s p) < String.length s ->
  GoStrings.HasPrefix s p = true
  /\ String.length s
     = String.length p + String.length (GoStrings.TrimPrefix s p).
Proof.
  unfold GoStrings.TrimPrefix.
  destruct (GoStrings.HasPrefix s p) eqn:E; [| lia].
  intros _. split; [reflexivity | now apply HasPrefix_length].
Qed.

Lemma ascii_compare_refl (c : ascii) : Ascii.compare c c = Eq.
Proof. unfold Ascii.compare. apply N.compare_refl. Qed.

(** A string is below each of its proper extensions. *)
Lemma ltb_append (a b : string) : b <> "" -> String.ltb a (a ++ b) = true.
Proof.
  intro Hb. unfold String.ltb.
  induction a as [| c a IH]; simpl.
  - destruct b; [contradiction | reflexivity].
  - now rewrite ascii_compare_refl.
Qed.

(** ** [sort.Search] *)

Lemma search_loop_S (fuel : nat) (f : nat -> bool) (i j : nat) :
  GoSort.search_loop (S fuel) f i j =
  if i <? j then
    if f ((i + j) / 2)
    then GoSort.search_loop fuel f i ((i + j) / 2)
    else GoSort.search_loop fuel f ((i + j) / 2 + 1) j
  else i.
Proof. cbn [GoSort.search_loop]. now destruct (f ((i + j) / 2)). Qed.

Lemma midpoint (i j : nat) : i < j -> i <= (i + j) / 2 < j.
Proof.
  intro H. split.
  - apply Nat.div_le_lower_bound; lia.
  - apply Nat.Div0.div_lt_upper_bound; lia.
Qed.

Section Search.
Variable n : nat.
Variable f : nat -> bool.

(** The predicate is monotone on [0, n): once true, true from there on. *)
Hypothesis f_mono : forall a b, a <= b -> b < n -> f a = true -> f b = true.

Lemma search_loop_spec (fuel : nat) : forall i j,
  i <= j -> j <= n -> j - i <= fuel ->
  (forall k, k < i -> f k = false) ->
  (forall k, j <= k -> k < n -> f k = true) ->
  GoSort.search_loop fuel f i j <= n
  /\ (forall k, k < GoSort.search_loop fuel f i j -> f k = false)
  /\ (forall k, GoSort.search_loop fuel f i j <= k -> k < n -> f k = true).
Proof.
  induction fuel as [| fuel IH]; intros i j Hij Hjn Hfuel Hlo Hhi.
  - simpl. assert (i = j) by lia. subst. repeat split; auto; lia.
  - rewrite search_loop_S.
    destruct (Nat.ltb_spec i j) as [Hlt | Hge].
    + pose proof (midpoint i j Hlt) as Hh.
      destruct (f ((i + j) / 2)) eqn:Ef.
      * apply IH; try lia; auto.
        intros k Hk Hkn. apply f_mono with ((i + j) / 2); auto.
      * apply IH; try lia; auto.
        intros k Hk.
        destruct (f k) eqn:Ek; trivial.
        rewrite (f_mono k ((i + j) / 2)) in Ef; try discriminate; auto; lia.
    + assert (i = j) by lia. subst. repeat split; auto; lia.
Qed.

Lemma Search_spec :
  GoSort.Search n f <= n
  /\ (forall k, k < GoSort.Search n f -> f k = false)
  /\ (forall k, GoSort.Search n f <= k -> k < n -> f k = true).
Proof.
  unfold GoSort.Search. apply search_loop_spec; try lia.
Qed.
End Search.

(** Whatever the predicate, the loop ends with [i <= result <= j]. *)
Lemma search_loop_le (f : nat -> bool) (fuel : nat) : forall i j,
  i <= j -> i <= GoSort.search_loop fuel f i j <= j.
Proof.
  induction fuel as [| fuel IH]; intros i j Hij; [simpl; lia |].
  rewrite search_loop_S.
  destruct (Nat.ltb_spec i j) as [Hlt | Hge]; [| lia].
  pose proof (midpoint i j Hlt) as Hh.
  destruct (f ((i + j) / 2)).
  - specialize (IH i ((i + j) / 2)). lia.
  - specialize (IH ((i + j) / 2 + 1) j). lia.
Qed.

Lemma Search_le (n : nat) (f : nat -> bool) : GoSort.Search n f <= n.
Proof. unfold GoSort.Search. pose proof (search_loop_le f n 0 n). lia. Qed.

(** More fuel than the distance changes nothing: the fuel of [Search]
    never runs out before the loop condition fails. *)
Lemma search_loop_fuel (f : nat -> bool) : forall fuel fuel' i j,
  j - i <= fuel -> j - i <= fuel' ->
  GoSort.search_loop fuel f i j = GoSort.search_loop fuel' f i j.
Proof.
  induction fuel as [| fuel IH]; intros fuel' i j H H'.
  - destruct fuel'; [reflexivity |]. rewrite search_loop_S. simpl.
    destruct (Nat.ltb_spec i j); trivial; lia.
  - rewrite search_loop_S. destruct fuel'.
    + simpl. destruct (Nat.ltb_spec i j); trivial; lia.
    + rewrite search_loop_S.
      destruct (Nat.ltb_spec i j) as [Hlt | Hge]; trivial.
      pose proof (midpoint i j Hlt) as Hh.
      destruct (f ((i + j) / 2)); apply IH; lia.
Qed.

(** ** Sorted entry sets and the index found by the binary search *)

Lemma sorted_nth (pset : pathConfigSet) : sorted pset ->
  forall i j a b, i <= j ->
  nth_error pset i = Some a -> nth_error pset j = Some b -> path_le a b.
Proof.
  induction 1 as [| x l Hl IH Hx]; intros i j a b Hij Ha Hb.
  - destruct i; discriminate.
  - destruct i as [| i], j as [| j]; simpl in *; try lia.
    + injection Ha as <-. injection Hb as <-. apply leb_refl.
    + injection Ha as <-. apply nth_error_In in Hb.
      rewrite Forall_forall in Hx. auto.
    + apply (IH i j); auto; lia.
Qed.

Lemma searchPred_mono (pset : pathConfigSet) (p : string) : sorted pset ->
  forall a b, a <= b -> b < length pset ->
  searchPred pset p a = true -> searchPred pset p b = true.
Proof.
  intros Hs a b Hab Hb. unfold searchPred.
  destruct (nth_error pset a) as [ea |] eqn:Ea; [| discriminate].
  destruct (nth_error pset b) as [eb |] eqn:Eb.
  - rewrite !ge_leb. intro H.
    apply leb_trans with (path ea); trivial.
    apply (sorted_nth pset Hs a b); auto.
  - apply nth_error_None in Eb. lia.
Qed.

Lemma searchIndex_spec (pset : pathConfigSet) (p : string) : sorted pset ->
  searchIndex pset p <= length pset
  /\ (forall k e, k < searchIndex pset p -> nth_error pset k = Some e ->
                  String.ltb (path e) p = true)
  /\ (forall k e, searchIndex pset p <= k -> nth_error pset k = Some e ->
                  String.leb p (path e) = true).
Proof.
  intro Hs. unfold searchIndex.
  destruct (Search_spec (length pset) (searchPred pset p) (searchPred_mono pset p Hs))
    as (Hle & Hlo & Hhi).
  split; [exact Hle | split].
  - intros k e Hk He. specialize (Hlo k Hk). unfold searchPred in Hlo.
    rewrite He in Hlo. unfold GoStrings.ge in Hlo.
    now destruct (String.ltb (path e) p).
  - intros k e Hk He.
    assert (k < length pset) as Hkn by (apply nth_error_Some; congruence).
    specialize (Hhi k Hk Hkn). unfold searchPred in Hhi.
    rewrite He, ge_leb in Hhi. exact Hhi.
Qed.

(** The first branch of [find]: the entry at the index found has the
    requested path. *)
Lemma find_exact (pset : pathConfigSet) (p : string) (e : pathConfig) :
  nth_error pset (searchIndex pset p) = Some e -> path e = p ->
  find pset p = (Some (searchIndex pset p, e), "").
Proof.
  intros He Hp. unfold find. rewrite He, Hp, String.eqb_refl. reflexivity.
Qed.

(** In a sorted set the binary search stops on the first entry that has
    the requested path, when there is one. *)
Lemma searchIndex_first (pset : pathConfigSet) (k : nat) (e : pathConfig) :
  sorted pset -> nth_error pset k = Some e ->
  exists e', nth_error pset (searchIndex pset (path e)) = Some e'
             /\ path e' = path e /\ searchIndex pset (path e) <= k.
Proof.
  intros Hs He.
  destruct (searchIndex_spec pset (path e) Hs) as (Hle & Hlo & Hhi).
  assert (searchIndex pset (path e) <= k) as Hk.
  { destruct (Nat.le_gt_cases (searchIndex pset (path e)) k) as [H | H]; trivial.
    specialize (Hlo k e H He). now rewrite ltb_irrefl in Hlo. }
  assert (searchIndex pset (path e) < length pset) as Hlt.
  { assert (k < length pset) by (apply nth_error_Some; congruence). lia. }
  apply nth_error_Some in Hlt.
  destruct (nth_error pset (searchIndex pset (path e))) as [e' |] eqn:E'; [| congruence].
  exists e'. repeat split; trivial.
  apply String.leb_antisym.
  - apply (sorted_nth pset Hs (searchIndex pset (path e)) k); auto.
  - apply (Hhi (searchIndex pset (path e)) e'); auto.
Qed.

(** ** [sort.Sort] keeps its promise *)

Lemma insert_perm (x : pathConfig) (l : pathConfigSet) :
  Permutation (GoSort.insert less x l) (x :: l).
Proof.
  induction l as [| y l IH]; simpl; [reflexivity |].
  destruct (less x y); [reflexivity |].
  rewrite IH. apply perm_swap.
Qed.

Lemma Sort_perm_acc (l : pathConfigSet) : forall acc,
  Permutation (fold_left (fun sorted x => GoSort.insert less x sorted) l acc)
              (acc ++ l)%list.
Proof.
  induction l as [| x l IH]; intro acc; simpl.
  - now rewrite app_nil_r.
  - rewrite IH, insert_perm. apply Permutation_middle.
Qed.

Lemma Sort_perm (l : pathConfigSet) : Permutation (GoSort.Sort less l) l.
Proof. unfold GoSort.Sort. apply (Sort_perm_acc l []). Qed.

Lemma insert_sorted (x : pathConfig) (l : pathConfigSet) :
  sorted l -> sorted (GoSort.insert less x l).
Proof.
  induction 1 as [| y l Hl IH Hy]; simpl.
  - repeat constructor.
  - destruct (less x y) eqn:E; unfold less, GoStrings.lt in E.
    + constructor; [now constructor |].
      constructor; [now apply ltb_leb |].
      eapply Forall_impl; [| exact Hy].
      intros a Ha. unfold path_le in *.
      apply leb_trans with (path y); trivial. now apply ltb_leb.
    + constructor; trivial.
      rewrite insert_perm.
      constructor; trivial. now apply ltb_false_leb.
Qed.

Lemma Sort_sorted_acc (l : pathConfigSet) : forall acc, sorted acc ->
  sorted (fold_left (fun sorted x => GoSort.insert less x sorted) l acc).
Proof.
  induction l as [| x l IH]; intros acc Hacc; simpl; trivial.
  apply IH. now apply insert_sorted.
Qed.

Lemma Sort_sorted (l : pathConfigSet) : sorted (GoSort.Sort less l).
Proof. apply Sort_sorted_acc. constructor. Qed.

(** ** The range loop of [InitHandler] *)

Lemma with_paths_same (h : Handler) : with_paths h (paths h) = h.
Proof. now destruct h. Qed.

Lemma rangeBody_valid (k : string) (e : pathSpec) (h : Handler) :
  validEntry (k, e) = true ->
  rangeBody k e h = (inr tt, with_paths h (paths h ++ [storedEntry (k, e)])%list).
Proof.
  unfold validEntry, rangeBody, storedEntry. simpl.
  destruct (inferVCS k e); [discriminate | reflexivity].
Qed.

Lemma rangeBody_invalid (k : string) (e : pathSpec) (h : Handler) (err : error) :
  inferVCS k e = inl err -> rangeBody k e h = (inl err, h).
Proof. unfold rangeBody. now intros ->. Qed.

Lemma rangePaths_valid (kvs : list (string * pathSpec)) : forall h,
  forallb validEntry kvs = true ->
  rangePaths kvs h = (inr tt, with_paths h (paths h ++ map storedEntry kvs)%list).
Proof.
  induction kvs as [| [k e] kvs IH]; intros h Hv; simpl in *.
  - now rewrite app_nil_r, with_paths_same.
  - apply andb_prop in Hv as [Hk Hv].
    unfold bind. rewrite (rangeBody_valid k e h Hk), (IH _ Hv). simpl.
    unfold with_paths. simpl. now rewrite <- app_assoc.
Qed.

Lemma rangePaths_first_invalid (pre : list (string * pathSpec)) :
  forall k e post err h,
  forallb validEntry pre = true -> inferVCS k e = inl err ->
  rangePaths (pre ++ (k, e) :: post) h
  = (inl err, with_paths h (paths h ++ map storedEntry pre)%list).
Proof.
  induction pre as [| [k0 e0] pre IH]; intros k e post err h Hv He; simpl in *.
  - unfold bind. rewrite (rangeBody_invalid k e h err He).
    now rewrite app_nil_r, with_paths_same.
  - apply andb_prop in Hv as [Hk Hv].
    unfold bind. rewrite (rangeBody_valid k0 e0 h Hk), (IH k e post err _ Hv He).
    unfold with_paths. simpl. now rewrite <- app_assoc.
Qed.

(** Either every entry is accepted or the list splits at the first one
    that is not. *)
Lemma first_invalid (kvs : list (string * pathSpec)) :
  forallb validEntry kvs = true
  \/ exists pre k e post err,
       kvs = (pre ++ (k, e) :: post)%list
       /\ forallb validEntry pre = true /\ inferVCS k e = inl err.
Proof.
  induction kvs as [| [k e] kvs IH]; [now left |].
  destruct (inferVCS k e) as [err | v] eqn:E.
  - right. exists [], k, e, kvs, err. repeat split; trivial.
  - assert (validEntry (k, e) = true) as Hk by (unfold validEntry; simpl; now rewrite E).
    destruct IH as [IH | (pre & k' & e' & post & err & -> & Hpre & He)].
    + left. simpl. now rewrite Hk, IH.
    + right. exists ((k, e) :: pre), k', e', post, err.
      repeat split; trivial.
      change (validEntry (k, e) && forallb validEntry pre = true).
      now rewrite Hk, Hpre.
Qed.

Lemma rangePaths_invalid (kvs : list (string * pathSpec)) (kv : string * pathSpec) (h : Handler) :
  In kv kvs -> validEntry kv = false ->
  exists err h', rangePaths kvs h = (inl err, h').
Proof.
  intros Hin Hkv.
  destruct (first_invalid kvs) as [Hall | (pre & k & e & post & err & -> & Hpre & He)].
  - rewrite forallb_forall in Hall. rewrite (Hall kv Hin) in Hkv. discriminate.
  - exists err. eexists. apply rangePaths_first_invalid; assumption.
Qed.

(** ** [InitHandler] after the document is parsed *)

Lemma configure_negative (c : config) (h : Handler) (a : Z) :
  CacheAge c = Some a -> (a < 0)%Z ->
  configure c h
  = (inl NegativeCacheAge,
     {| host := Host c; cacheControl := cacheControl h; paths := paths h |}).
Proof.
  intros Ha Hneg. unfold configure, bind, set_host, modify. rewrite Ha.
  destruct (Z.ltb_spec a 0); [reflexivity | lia].
Qed.

Lemma configure_range (c : config) (h : Handler) :
  cacheAgeOK c ->
  configure c h
  = match rangePaths (Paths c) (assigned c h) with
    | (inl err, h') => (inl err, h')
    | (inr _, h') => (inr tt, with_paths h' (GoSort.Sort less (paths h')))
    end.
Proof.
  intro Hok. unfold configure, bind, set_host, set_cacheControl, set_paths, modify.
  unfold cacheAgeOK in Hok. unfold assigned, cacheAgeOf.
  destruct (CacheAge c) as [a |]; simpl.
  - destruct (Z.ltb_spec a 0); [lia |]. simpl.
    destruct (rangePaths (Paths c) _) as [[err | []] h']; reflexivity.
  - destruct (rangePaths (Paths c) _) as [[err | []] h']; reflexivity.
Qed.

Lemma cacheAge_cases (c : config) :
  cacheAgeOK c \/ exists a, CacheAge c = Some a /\ (a < 0)%Z.
Proof.
  unfold cacheAgeOK. destruct (CacheAge c) as [a |]; [| now left].
  destruct (Z.lt_ge_cases a 0); [right; eauto | now left].
Qed.

Lemma InitHandler_delivers (ext : external) (c : config) (h : Handler) :
  delivers ext c -> InitHandler ext h = configure c h.
Proof.
  intros (Hget & (raw & Hraw & Hlen) & Hc). unfold InitHandler.
  rewrite Hget, Hraw, Hc. simpl.
  destruct (Nat.eqb_spec (String.length raw) 0); [contradiction | reflexivity].
Qed.

Lemma InitHandler_cases (ext : external) (h : Handler) :
  (exists c, delivers ext c)
  \/ exists err, InitHandler ext h = (inl err, h) /\ beforeAssignment err = true.
Proof.
  unfold InitHandler, delivers.
  destruct (Get ext) as [code |]; [| right; eexists; split; reflexivity].
  destruct (Z.eqb_spec code 200) as [-> | Hne]; simpl;
    [| right; eexists; split; reflexivity].
  destruct (ReadAll ext) as [raw |]; [| right; eexists; split; reflexivity].
  destruct (Nat.eqb_spec (String.length raw) 0) as [H0 | Hn0];
    [right; eexists; split; reflexivity |].
  destruct (Unmarshal ext) as [c |]; [| right; eexists; split; reflexivity].
  left. exists c. repeat split; eauto.
Qed.

Lemma InitHandler_success (ext : external) (h h' : Handler) :
  InitHandler ext h = (inr tt, h') ->
  exists c, delivers ext c /\ cacheAgeOK c
            /\ forallb validEntry (Paths c) = true
            /\ h' = with_paths (assigned c h)
                      (GoSort.Sort less (paths h ++ map storedEntry (Paths c))%list).
Proof.
  intro H.
  destruct (InitHandler_cases ext h) as [[c Hc] | (err & Herr & _)]; [| congruence].
  exists c. split; trivial.
  rewrite (InitHandler_delivers ext c h Hc) in H.
  destruct (cacheAge_cases c) as [Hok | (a & Ha & Hneg)].
  - split; trivial. rewrite (configure_range c h Hok) in H.
    destruct (first_invalid (Paths c))
      as [Hall | (pre & k & e & post & err & Hsplit & Hpre & He)].
    + split; trivial. rewrite (rangePaths_valid _ _ Hall) in H.
      injection H as <-. reflexivity.
    + rewrite Hsplit, (rangePaths_first_invalid pre k e post err _ Hpre He) in H.
      discriminate.
  - rewrite (configure_negative c h a Ha Hneg) in H. discriminate.
Qed.

Lemma delivers_unique (ext : external) (c c' : config) :
  delivers ext c -> delivers ext c' -> c = c'.
Proof. intros (_ & _ & H) (_ & _ & H'). congruence. Qed.

(** ** The slow path of [find] *)

(** The loop either keeps the match it started with, nothing in the list
    improving on [lenShortestSubpath], or ends on an element of the list
    whose trimmed rest is strictly shorter than the starting length and
    no longer than the rest of any shorter-than-the-request element. *)
Lemma findLoop_spec (R : string) (l : pathConfigSet) :
  forall k best sub len,
  (fst (findLoop R l k best sub len) = best
   /\ snd (findLoop R l k best sub len) = sub
   /\ forall ps, In ps l -> String.length (path ps) < String.length R ->
                 len <= String.length (GoStrings.TrimPrefix R (path ps)))
  \/ exists j ps,
       findLoop R l k best sub len
       = (Some (k + j, ps), GoStrings.TrimPrefix R (path ps))
       /\ nth_error l j = Some ps
       /\ String.length (path ps) < String.length R
       /\ String.length (GoStrings.TrimPrefix R (path ps)) < len
       /\ forall ps', In ps' l -> String.length (path ps') < String.length R ->
            String.length (GoStrings.TrimPrefix R (path ps))
            <= String.length (GoStrings.TrimPrefix R (path ps')).
Proof.
  induction l as [| ps l IH]; intros k best sub len.
  - left. simpl. repeat split; trivial. intros ps [].
  - cbn [findLoop].
    destruct (Nat.leb_spec (String.length R) (String.length (path ps))) as [Hlong | Hshort].
    + destruct (IH (S k) best sub len)
        as [(Hb & Hs & Hmin) | (j & ps' & Heq & Hnth & Hlen & Hlt & Hmin)].
      * left. repeat split; trivial.
        intros x [<- | Hx] Hxlen; [lia | auto].
      * right. exists (S j), ps'. rewrite Heq, Nat.add_succ_r.
        repeat split; trivial.
        intros x [<- | Hx] Hxlen; [lia | auto].
    + destruct (Nat.ltb_spec (String.length (GoStrings.TrimPrefix R (path ps))) len)
        as [Hbetter | Hworse].
      * destruct (IH (S k) (Some (k, ps)) (GoStrings.TrimPrefix R (path ps))
                     (String.length (GoStrings.TrimPrefix R (path ps))))
          as [(Hb & Hs & Hmin) | (j & ps' & Heq & Hnth & Hlen & Hlt & Hmin)].
        -- right. exists 0, ps. rewrite Nat.add_0_r.
           repeat split; trivial.
           ++ rewrite (surjective_pairing (findLoop R l (S k) (Some (k, ps)) _ _)).
              now rewrite Hb, Hs.
           ++ intros x [<- | Hx] Hxlen; [lia | auto].
        -- right. exists (S j), ps'. rewrite Heq, Nat.add_succ_r.
           repeat split; trivial; try lia.
           intros x [<- | Hx] Hxlen; [lia | auto].
      * destruct (IH (S k) best sub len)
          as [(Hb & Hs & Hmin) | (j & ps' & Heq & Hnth & Hlen & Hlt & Hmin)].
        -- left. repeat split; trivial.
           intros x [<- | Hx] Hxlen; [lia | auto].
        -- right. exists (S j), ps'. rewrite Heq, Nat.add_succ_r.
           repeat split; trivial.
           intros x [<- | Hx] Hxlen; [lia | auto].
Qed.

(** The three ways [find] answers, read off its branches. *)
Lemma find_cases (pset : pathConfigSet) (R : string) :
  (exists e, nth_error pset (searchIndex pset R) = Some e /\ path e = R
             /\ find pset R = (Some (searchIndex pset R, e), ""))
  \/ (noExact pset R
      /\ exists j e, searchIndex pset R = S j /\ nth_error pset j = Some e
                  /\ GoStrings.HasPrefix R (path e ++ "/") = true
                  /\ find pset R
                     = (Some (j, e),
                        GoStrings.slice_from (String.length (path e) + 1) R))
  \/ (noExact pset R
      /\ (forall j e, searchIndex pset R = S j -> nth_error pset j = Some e ->
                      GoStrings.HasPrefix R (path e ++ "/") = false)
      /\ find pset R
         = findLoop R (firstn (searchIndex pset R) pset) 0 None "" (String.length R)).
Proof.
  unfold find, noExact.
  assert (forall j e, searchIndex pset R = S j -> nth_error pset j = Some e ->
            GoStrings.HasPrefix R (path e ++ "/") = true ->
            match nth_error pset j with
            | Some e0 => if GoStrings.HasPrefix R (path e0 ++ "/")
                         then Some (j, e0) else None
            | None => None
            end = Some (j, e)) as Hbefore.
  { intros j e _ He Hpre. now rewrite He, Hpre. }
  destruct (nth_error pset (searchIndex pset R)) as [e |] eqn:He.
  - destruct (String.eqb_spec (path e) R) as [Hp | Hp].
    + left. exists e. auto.
    + right.
      assert (forall e0, Some e = Some e0 -> path e0 <> R) as Hno
        by (intros e0 [= <-]; exact Hp).
      destruct (searchIndex pset R) as [| j] eqn:Hi.
      { right. repeat split; trivial. discriminate. }
      destruct (nth_error pset j) as [e0 |] eqn:He0.
      * destruct (GoStrings.HasPrefix R (path e0 ++ "/")) eqn:Hpre.
        -- left. split; trivial. exists j, e0. auto.
        -- right. repeat split; trivial. intros j' e' [= <-]. congruence.
      * right. repeat split; trivial. intros j' e' [= <-]. congruence.
  - right.
    assert (forall e0, None = Some e0 -> path e0 <> R) as Hno by discriminate.
    destruct (searchIndex pset R) as [| j] eqn:Hi.
    { right. repeat split; trivial. discriminate. }
    destruct (nth_error pset j) as [e0 |] eqn:He0.
    * destruct (GoStrings.HasPrefix R (path e0 ++ "/")) eqn:Hpre.
      -- left. split; trivial. exists j, e0. auto.
      -- right. repeat split; trivial. intros j' e' [= <-]. congruence.
    * right. repeat split; trivial. intros j' e' [= <-]. congruence.
Qed.

(** Whatever the entry set, sorted or not: the entry [find] returns is
    stored at the index returned, its path is a byte prefix of the request,
    and the subpath is the rest of the request, after the separator when
    the fast path answered and from the separator on (or from the middle of
    a segment) when the slow path did. *)
Lemma find_sound (pset : pathConfigSet) (R : string) (k : nat)
      (e : pathConfig) (sub : string) :
  find pset R = (Some (k, e), sub) ->
  nth_error pset k = Some e
  /\ ((path e = R /\ sub = "")
      \/ R = path e ++ "/" ++ sub
      \/ (R = path e ++ sub /\ String.length (path e) < String.length R
          /\ String.length sub < String.length R)).
Proof.
  intro H.
  destruct (find_cases pset R)
    as [(e0 & He0 & Hp & Hf) | [(_ & j & e0 & Hi & He0 & Hpre & Hf) | (_ & _ & Hf)]];
    rewrite Hf in H.
  - injection H as <- <- <-. auto.
  - injection H as <- <- <-. split; trivial. right. left.
    rewrite (HasPrefix_split R (path e0 ++ "/") Hpre) at 1.
    now rewrite length_append, append_assoc.
  - destruct (findLoop_spec R (firstn (searchIndex pset R) pset) 0 None ""
                            (String.length R))
      as [(Hb & _) | (j & ps & Heq & Hnth & Hlen & Hlt & _)].
    + rewrite H in Hb. discriminate.
    + rewrite Heq in H. injection H as <- <- <-.
      rewrite nth_error_firstn in Hnth.
      destruct (j <? searchIndex pset R); [| discriminate].
      split; trivial. right. right.
      destruct (TrimPrefix_length R (path ps) Hlt) as (Hpre & _).
      repeat split; trivial.
      unfold GoStrings.TrimPrefix. rewrite Hpre.
      now apply HasPrefix_split.
Qed.

(** When nothing matches, the named result [subpath] is still empty. *)
Lemma find_none (pset : pathConfigSet) (R sub : string) :
  find pset R = (None, sub) -> sub = "".
Proof.
  intro H.
  destruct (find_cases pset R)
    as [(e0 & _ & _ & Hf) | [(_ & j & e0 & _ & _ & _ & Hf) | (_ & _ & Hf)]];
    rewrite Hf in H; try discriminate.
  destruct (findLoop_spec R (firstn (searchIndex pset R) pset) 0 None ""
                          (String.length R))
    as [(_ & Hs & _) | (j & ps & Heq & _)].
  - rewrite H in Hs. now symmetry.
  - rewrite Heq in H. discriminate.
Qed.

(** ** What the resolver guarantees on sorted entry sets *)

Lemma ltb_not_leb (a b : string) : String.ltb a b = true -> String.leb b a = false.
Proof.
  unfold String.ltb, String.leb. rewrite (String.compare_antisym a b).
  destruct (String.compare b a); simpl; congruence.
Qed.

Lemma ancestor_cases (p R : string) :
  ancestor p R = true -> p = R \/ exists t, R = p ++ "/" ++ t.
Proof.
  unfold ancestor. intro H. apply orb_prop in H as [H | H].
  - left. now apply String.eqb_eq.
  - right. exists (GoStrings.slice_from (String.length (p ++ "/")) R).
    rewrite <- append_assoc. now apply HasPrefix_split.
Qed.

(** Of two prefixes of one string the longer continues the shorter. *)
Lemma prefixes_nest (a : string) : forall b x y,
  a ++ x = b ++ y -> String.length a <= String.length b ->
  exists u, b = a ++ u.
Proof.
  induction a as [| c a IH]; intros b x y H Hlen; [now exists b |].
  destruct b as [| d b]; simpl in *; [lia |].
  injection H as <- H.
  destruct (IH b x y H) as [u ->]; [lia |]. now exists u.
Qed.

(** In a sorted set with no entry at the request itself, every entry
    that the request continues after a ["/"] lies before the index found
    by the binary search. *)
Lemma ancestor_before (pset : pathConfigSet) (R t : string) (j : nat) (e : pathConfig) :
  sorted pset -> nth_error pset j = Some e -> R = path e ++ "/" ++ t ->
  j < searchIndex pset R.
Proof.
  intros Hs He HR.
  destruct (searchIndex_spec pset R Hs) as (_ & _ & Hhi).
  destruct (Nat.lt_ge_cases j (searchIndex pset R)) as [H | H]; trivial.
  specialize (Hhi j e H He).
  assert (String.ltb (path e) R = true) as Hlt
    by (rewrite HR; now apply ltb_append).
  apply ltb_not_leb in Hlt. congruence.
Qed.

Lemma exact_found (pset : pathConfigSet) (R : string) (j : nat) (e : pathConfig) :
  sorted pset -> nth_error pset j = Some e -> noExact pset R -> path e <> R.
Proof.
  intros Hs He Hno Hp.
  destruct (searchIndex_first pset j e Hs He) as (e' & He' & Hp' & _).
  rewrite Hp in He', Hp'. exact (Hno e' He' Hp').
Qed.

(** Longest-prefix priority among the prefix-ancestors: in a sorted set
    the entry returned is never shorter than a configured prefix-ancestor
    of the request. *)
Lemma find_not_shorter_than_ancestor (pset : pathConfigSet) (R : string)
      (k : nat) (e : pathConfig) (sub : string) :
  sorted pset -> find pset R = (Some (k, e), sub) ->
  forall j e', nth_error pset j = Some e' -> ancestor (path e') R = true ->
               String.length (path e') <= String.length (path e).
Proof.
  intros Hs Hfind j e' He' Hanc.
  destruct (find_cases pset R)
    as [(e0 & He0 & Hp & Hf)
       | [(Hno & i & e0 & Hi & He0 & Hpre & Hf) | (Hno & _ & Hf)]];
    rewrite Hf in Hfind.
  - injection Hfind as <- <- <-. rewrite Hp.
    destruct (ancestor_cases _ _ Hanc) as [-> | [t ->]]; trivial.
    rewrite length_append. lia.
  - injection Hfind as <- <- <-.
    destruct (ancestor_cases _ _ Hanc) as [Heq | [t HR]];
      [now apply (exact_found pset R j e' Hs He') in Hno |].
    destruct (Nat.le_gt_cases (String.length (path e')) (String.length (path e0)))
      as [Hle | Hgt]; trivial.
    exfalso.
    pose proof (HasPrefix_split R (path e0 ++ "/") Hpre) as HR0.
    rewrite append_assoc in HR0.
    assert (exists u, path e' = path e0 ++ u) as [u Hu].
    { apply (prefixes_nest (path e0) (path e')
                           ("/" ++ GoStrings.slice_from (String.length (path e0 ++ "/")) R)
                           ("/" ++ t)); [| lia].
      rewrite <- HR0. exact HR. }
    assert (u <> "") as Hne.
    { intros ->. rewrite Hu, length_append in Hgt. simpl in Hgt. lia. }
    pose proof (ancestor_before pset R t j e' Hs He' HR) as Hj.
    assert (path_le e' e0) as Hle
      by (apply (sorted_nth pset Hs j i); trivial; lia).
    unfold path_le in Hle. rewrite Hu in Hle.
    rewrite (ltb_not_leb _ _ (ltb_append (path e0) u Hne)) in Hle. discriminate.
  - destruct (ancestor_cases _ _ Hanc) as [Heq | [t HR]];
      [now apply (exact_found pset R j e' Hs He') in Hno |].
    destruct (findLoop_spec R (firstn (searchIndex pset R) pset) 0 None ""
                            (String.length R))
      as [(Hb & _) | (i & ps & Heq & Hnth & Hlen & Hlt & Hmin)].
    + rewrite Hfind in Hb. discriminate.
    + rewrite Heq in Hfind. injection Hfind as <- <- <-.
      pose proof (ancestor_before pset R t j e' Hs He' HR) as Hj.
      assert (In e' (firstn (searchIndex pset R) pset)) as Hin.
      { apply (nth_error_In _ j). rewrite nth_error_firstn.
        destruct (Nat.ltb_spec j (searchIndex pset R)); [exact He' | lia]. }
      assert (String.length R = String.length (path e') + S (String.length t)) as HlenR
        by (rewrite HR at 1; now rewrite length_append).
      specialize (Hmin e' Hin ltac:(lia)).
      destruct (TrimPrefix_length R (path ps) Hlt) as (_ & Hps).
      assert (GoStrings.HasPrefix R (path e') = true) as Hpre'
        by (rewrite HR; apply HasPrefix_append).
      pose proof (HasPrefix_length R (path e') Hpre') as He'len.
      unfold GoStrings.TrimPrefix in Hmin at 2. rewrite Hpre' in Hmin. lia.
Qed.

(** In a sorted set a configured prefix-ancestor with a non-empty path is
    enough for [find] to return some entry. *)
Lemma find_some_of_ancestor (pset : pathConfigSet) (R : string)
      (j : nat) (e : pathConfig) :
  sorted pset -> nth_error pset j = Some e -> path e <> "" ->
  ancestor (path e) R = true ->
  exists m sub, find pset R = (Some m, sub).
Proof.
  intros Hs He Hne Hanc.
  destruct (find_cases pset R)
    as [(e0 & He0 & Hp & Hf)
       | [(Hno & i & e0 & Hi & He0 & Hpre & Hf) | (Hno & _ & Hf)]];
    rewrite Hf; eauto.
  destruct (ancestor_cases _ _ Hanc) as [Heq | [t HR]];
    [now apply (exact_found pset R j e Hs He) in Hno |].
  destruct (findLoop_spec R (firstn (searchIndex pset R) pset) 0 None ""
                          (String.length R))
    as [(_ & _ & Hmin) | (i & ps & Heq & _)]; [| rewrite Heq; eauto].
  exfalso.
  pose proof (ancestor_before pset R t j e Hs He HR) as Hj.
  assert (In e (firstn (searchIndex pset R) pset)) as Hin.
  { apply (nth_error_In _ j). rewrite nth_error_firstn.
    destruct (Nat.ltb_spec j (searchIndex pset R)); [exact He | lia]. }
  assert (String.length R = String.length (path e) + S (String.length t)) as HlenR
    by (rewrite HR at 1; now rewrite length_append).
  specialize (Hmin e Hin ltac:(lia)).
  assert (GoStrings.HasPrefix R (path e) = true) as Hpre
    by (rewrite HR; apply HasPrefix_append).
  pose proof (HasPrefix_length R (path e) Hpre) as Helen.
  unfold GoStrings.TrimPrefix in Hmin. rewrite Hpre in Hmin.
  assert (String.length (path e) <> 0) by (destruct (path e); [congruence | discriminate]).
  lia.
Qed.

(** In particular the request [p ++ "/"] of a stored non-empty path [p]
    never falls through. *)
Lemma find_trailing_slash (pset : pathConfigSet) (j : nat) (e : pathConfig) :
  sorted pset -> nth_error pset j = Some e -> path e <> "" ->
  exists m sub, find pset (path e ++ "/") = (Some m, sub).
Proof.
  intros Hs He Hne. apply (find_some_of_ancestor pset _ j e); trivial.
  unfold ancestor. rewrite HasPrefix_refl. apply orb_true_r.
Qed.

(** When the entry just before the index found is followed by ["/"] in
    the request, the answer is that entry and the subpath is the request
    without the entry's path and the separator. *)
Lemma find_predecessor (pset : pathConfigSet) (s : string) (j : nat) (e : pathConfig) :
  noExact pset (path e ++ "/" ++ s) ->
  searchIndex pset (path e ++ "/" ++ s) = S j -> nth_error pset j = Some e ->
  find pset (path e ++ "/" ++ s) = (Some (j, e), s).
Proof.
  intros Hno Hi He.
  destruct (find_cases pset (path e ++ "/" ++ s))
    as [(e0 & He0 & Hp & _)
       | [(_ & i & e0 & Hi0 & He0 & Hpre & Hf) | (_ & Hnot & _)]].
  - now apply Hno in He0.
  - rewrite Hf. rewrite Hi in Hi0. injection Hi0 as <-.
    rewrite He in He0. injection He0 as <-.
    replace (String.length (path e) + 1) with (String.length (path e ++ "/"))
      by (rewrite length_append; reflexivity).
    now rewrite <- append_assoc, slice_from_append.
  - specialize (Hnot j e Hi He).
    rewrite <- append_assoc, HasPrefix_append in Hnot. discriminate.
Qed.

Lemma knownVCS_empty : knownVCS "" = false.
Proof. reflexivity. Qed.

Lemma validEntry_accepted (k : string) (e : pathSpec) :
  validEntry (k, e) = true <-> accepted e.
Proof.
  unfold validEntry, accepted, inferVCS. simpl.
  destruct (String.eqb_spec (VCS e) "") as [Hv | Hv]; simpl.
  - rewrite Hv, knownVCS_empty.
    destruct (GoStrings.HasPrefix (Repo e) github); split; auto; try discriminate.
    intros [H | [_ H]]; discriminate.
  - destruct (knownVCS (VCS e)); simpl; split; auto; try discriminate.
    intros [H | [H _]]; [discriminate | contradiction].
Qed.

Lemma storedEntry_fields (k : string) (e : pathSpec) :
  validEntry (k, e) = true ->
  storedEntry (k, e)
  = {| path := GoStrings.TrimSuffix k "/";
       repo := Repo e;
       display := inferDisplay e;
       vcs := storedVCS e |}.
Proof.
  unfold validEntry, storedEntry, stored, storedVCS, inferVCS. simpl.
  destruct (String.eqb_spec (VCS e) "") as [Hv | Hv]; simpl.
  - destruct (GoStrings.HasPrefix (Repo e) github); [reflexivity | discriminate].
  - destruct (knownVCS (VCS e)); [reflexivity | discriminate].
Qed.

Lemma storedVCS_known (e : pathSpec) : accepted e -> knownVCS (storedVCS e) = true.
Proof.
  unfold accepted, storedVCS. intros [H | [H _]].
  - destruct (String.eqb_spec (VCS e) "") as [Hv | Hv]; [reflexivity | exact H].
  - rewrite H. reflexivity.
Qed.

Lemma delivered : forall c, delivers (served c) c.
Proof.
  intro c. repeat split. exists "paths: ...". split; [reflexivity | discriminate].
Qed.

Lemma acceptedPrefix_split (pre : list (string * pathSpec)) :
  forall k e post,
  forallb validEntry pre = true -> validEntry (k, e) = false ->
  acceptedPrefix (pre ++ (k, e) :: post) = pre.
Proof.
  induction pre as [| kv pre IH]; intros k e post Hpre Hk; simpl.
  - now rewrite Hk.
  - simpl in Hpre. apply andb_prop in Hpre as [Hkv Hpre].
    now rewrite Hkv, (IH k e post Hpre Hk).
Qed.

Lemma inferVCS_rejected (k : string) (e : pathSpec) (err : error) :
  inferVCS k e = inl err -> validEntry (k, e) = false.
Proof. unfold validEntry. simpl. now intros ->. Qed.

Lemma map_storedEntry (pre : list (string * pathSpec)) :
  forallb validEntry pre = true ->
  map storedEntry pre
  = map (fun kv => {| path := GoStrings.TrimSuffix (fst kv) "/";
                      repo := Repo (snd kv);
                      display := inferDisplay (snd kv);
                      vcs := storedVCS (snd kv) |}) pre.
Proof.
  intro Hpre. apply map_ext_in. intros [k e] Hin.
  rewrite forallb_forall in Hpre. apply storedEntry_fields. now apply Hpre.
Qed.

(** The build of a delivered document that stops at its first rejected
    entry: the error is that entry's, and the handler is left with the
    host and cache control of the document and the accepted entries
    appended in the order visited. *)
Lemma InitHandler_first_rejected (ext : external) (c : config) (h : Handler)
      (pre post : list (string * pathSpec)) (k : string) (e : pathSpec) (err : error) :
  delivers ext c -> cacheAgeOK c ->
  Paths c = (pre ++ (k, e) :: post)%list ->
  forallb validEntry pre = true -> inferVCS k e = inl err ->
  acceptedPrefix (Paths c) = pre
  /\ InitHandler ext h
     = (inl err,
        {| host := Host c;
           cacheControl := "public, max-age=" ++ format_d (cacheAgeOf c);
           paths := (paths h
                     ++ map (fun kv => {| path := GoStrings.TrimSuffix (fst kv) "/";
                                          repo := Repo (snd kv);
                                          display := inferDisplay (snd kv);
                                          vcs := storedVCS (snd kv) |}) pre)%list |}).
Proof.
  intros Hc Hok Hsplit Hpre He. split.
  - rewrite Hsplit. apply acceptedPrefix_split; trivial.
    now apply (inferVCS_rejected k e err).
  - rewrite (InitHandler_delivers ext c h Hc), (configure_range c h Hok), Hsplit.
    rewrite (rangePaths_first_invalid pre k e post err _ Hpre He).
    now rewrite (map_storedEntry pre Hpre).
Qed.

(** ** The claims of the specification *)

(** C9 does not hold for a path that no configured entry matches but
    that continues a stored path without a ["/"]: with the single key
    ["/abc"], no entry is a prefix-ancestor of the request ["/abcd"] and the
    path is not the root, yet [HandleImport] answers with the vanity page
    of ["/abc"] and the subpath ["d"] instead of not-found.  The request
    ["/other"], of which no stored path is a byte prefix, is answered with
    not-found, and the root with the index. *)
Theorem HandleImport_serves_unmatched_path :
  fst (InitHandler (served abcOnly) empty) = inr tt
  /\ map path (paths (built abcOnly)) = ["/abc"]
  /\ forallb (fun e => negb (ancestor (path e) "/abcd")) (paths (built abcOnly)) = true
  /\ String.eqb "/abcd" "/" = false
  /\ HandleImport (built abcOnly) (request "/abcd")
     = ServeVanity "public, max-age=86400" "go.example.com/abc" "d"
                   "https://github.com/org/abc"
                   (inferDisplay (onGithub "org/abc")) "git"
  /\ HandleImport (built abcOnly) (request "/abcd") <> NotFound
  /\ HandleImport (built abcOnly) (request "/other") = NotFound
  /\ HandleImport (built abcOnly) (request "/")
     = ServeIndex "go.example.com" ["go.example.com/abc"].
Proof. repeat split. discriminate. Qed.

(** C8, as the code has it: in a sorted entry set, resolving a request
    path equal to the stored path of a configured entry returns, with an
    empty subpath, the first stored entry that has this path, whatever the
    other entries are; it is that entry itself whenever no earlier entry
    shares its path, in particular whenever the stored paths are pairwise
    distinct. *)
Theorem find_own_path (pset : pathConfigSet) (k : nat) (e : pathConfig) :
  sorted pset -> nth_error pset k = Some e ->
  exists k' e',
    find pset (path e) = (Some (k', e'), "")
    /\ nth_error pset k' = Some e' /\ path e' = path e /\ k' <= k
    /\ (forall j ej, j < k' -> nth_error pset j = Some ej -> path ej <> path e)
    /\ ((forall j ej, j < k -> nth_error pset j = Some ej -> path ej <> path e) ->
        k' = k /\ e' = e).
Proof.
  intros Hs He.
  destruct (searchIndex_first pset k e Hs He) as (e' & He' & Hp & Hk).
  exists (searchIndex pset (path e)), e'.
  split; [now apply find_exact |].
  repeat split; trivial.
  - intros j ej Hj Hej Heq.
    destruct (searchIndex_spec pset (path e) Hs) as (_ & Hlo & _).
    specialize (Hlo j ej Hj Hej). rewrite Heq, ltb_irrefl in Hlo. discriminate.
  - destruct (Nat.eq_dec (searchIndex pset (path e)) k) as [Heq | Hne]; trivial.
    exfalso. apply (H (searchIndex pset (path e)) e'); trivial. lia.
  - destruct (Nat.eq_dec (searchIndex pset (path e)) k) as [Heq | Hne].
    + rewrite Heq in He'. congruence.
    + exfalso. apply (H (searchIndex pset (path e)) e'); trivial. lia.
Qed.

Lemma find_own_path_witness :
  sorted [entry "/a"; entry "/b"]
  /\ nth_error [entry "/a"; entry "/b"] 1 = Some (entry "/b")
  /\ exists k' e',
       find [entry "/a"; entry "/b"] "/b" = (Some (k', e'), "")
       /\ path e' = "/b" /\ k' <= 1.
Proof.
  assert (sorted [entry "/a"; entry "/b"]) as Hs
    by (repeat constructor).
  split; [exact Hs | split; [reflexivity |]].
  destruct (find_own_path [entry "/a"; entry "/b"] 1 (entry "/b") Hs eq_refl)
    as (k' & e' & Hfind & _ & Hp & Hk & _).
  exists k', e'. auto.
Defined.

(** C8 as stated fails when two keys share a stored path: the keys ["/a"]
    and ["/a/"] are both stored as ["/a"], and resolving ["/a"] returns the
    entry at index 0, with the repository of the first key, not the
    configured entry at index 1. *)
Lemma find_own_path_shared :
  fst (InitHandler (served twoKeys) empty) = inr tt
  /\ map path (paths (built twoKeys)) = ["/a"; "/a"]
  /\ map repo (paths (built twoKeys))
     = ["https://github.com/org/a"; "https://github.com/org/b"]
  /\ option_map (fun m => (fst m, repo (snd m)))
                (fst (find (paths (built twoKeys)) "/a"))
     = Some (0, "https://github.com/org/a")
  /\ match nth_error (paths (built twoKeys)) 1 with
     | Some e => find (paths (built twoKeys)) (path e) <> (Some (1, e), "")
     | None => False
     end.
Proof.
  repeat split. cbn [nth_error]. intro H. vm_compute in H. discriminate H.
Qed.

(** C7, as the code has it: after every successful build the stored
    entries are sorted by path, ascending; the stored paths are pairwise
    distinct when the handler held no entry before the build and no two
    keys of the document coincide once a trailing ["/"] is trimmed. *)
Theorem InitHandler_sorted (ext : external) (h h' : Handler) :
  InitHandler ext h = (inr tt, h') ->
  sorted (paths h')
  /\ (forall c, delivers ext c -> paths h = [] ->
        NoDup (map (fun kv => GoStrings.TrimSuffix (fst kv) "/") (Paths c)) ->
        NoDup (map path (paths h'))).
Proof.
  intro H.
  destruct (InitHandler_success ext h h' H) as (c & Hc & _ & _ & ->).
  simpl. split; [apply Sort_sorted |].
  intros c' Hc' Hempty Hkeys.
  rewrite (delivers_unique ext c' c Hc' Hc) in Hkeys.
  rewrite Hempty. simpl.
  apply (Permutation_NoDup (l := map path (map storedEntry (Paths c)))).
  - apply Permutation_map. symmetry. apply Sort_perm.
  - rewrite map_map. exact Hkeys.
Qed.

Lemma InitHandler_sorted_witness :
  InitHandler (served nested) empty = (inr tt, built nested)
  /\ sorted (paths (built nested)).
Proof.
  split; [reflexivity |].
  exact (proj1 (InitHandler_sorted (served nested) empty (built nested) eq_refl)).
Defined.

(** C7 as stated fails on uniqueness: a document with the keys ["/a"] and
    ["/a/"] builds successfully and stores the path ["/a"] twice. *)
Lemma stored_paths_repeat :
  fst (InitHandler (served twoKeys) empty) = inr tt
  /\ ~ NoDup (map path (paths (built twoKeys))).
Proof.
  split; [reflexivity |].
  intro H. change (map path (paths (built twoKeys))) with ["/a"; "/a"] in H.
  inversion H as [| x l Hin _]. apply Hin. now left.
Qed.

(** C4, as the code has it: a build attempt that fails before the
    document is parsed (fetch, status, read, empty document, parse error)
    leaves the handler exactly as it was; an attempt that fails later has
    already updated the package-level handler in place.  For a negative
    cache age the host alone is overwritten.  For a rejected entry the
    host and the cache control are those of the new document, and the
    entries visited before the first rejected one are appended, in the
    order visited and unsorted, to the entries stored before, each with
    its key trimmed, its repository, its display template and its VCS. *)
Theorem InitHandler_failure_state (ext : external) (h h' : Handler) (err : error) :
  InitHandler ext h = (inl err, h') ->
  if beforeAssignment err then h' = h
  else exists c, delivers ext c
       /\ ((err = NegativeCacheAge
            /\ (exists a, CacheAge c = Some a /\ (a < 0)%Z)
            /\ h' = {| host := Host c;
                       cacheControl := cacheControl h;
                       paths := paths h |})
           \/ (cacheAgeOK c
               /\ exists k e post,
                    Paths c = (acceptedPrefix (Paths c) ++ (k, e) :: post)%list
                    /\ inferVCS k e = inl err
                    /\ h' = {| host := Host c;
                               cacheControl :=
                                 "public, max-age=" ++ format_d (cacheAgeOf c);
                               paths :=
                                 (paths h
                                  ++ map (fun kv =>
                                            {| path := GoStrings.TrimSuffix (fst kv) "/";
                                               repo := Repo (snd kv);
                                               display := inferDisplay (snd kv);
                                               vcs := storedVCS (snd kv) |})
                                         (acceptedPrefix (Paths c)))%list |})).
Proof.
  intro H.
  destruct (InitHandler_cases ext h) as [[c Hc] | (err' & Herr & Hearly)].
  - destruct (cacheAge_cases c) as [Hok | (a & Ha & Hneg)].
    + destruct (first_invalid (Paths c))
        as [Hall | (pre & k & e & post & err' & Hsplit & Hpre & He)].
      * rewrite (InitHandler_delivers ext c h Hc), (configure_range c h Hok) in H.
        rewrite (rangePaths_valid _ _ Hall) in H. discriminate.
      * destruct (InitHandler_first_rejected ext c h pre post k e err'
                    Hc Hok Hsplit Hpre He) as (Hacc & Hinit).
        rewrite Hinit in H. injection H as <- <-.
        assert (beforeAssignment err' = false) as ->.
        { unfold inferVCS in He.
          destruct (negb (VCS e =? "")%string);
            [destruct (negb (knownVCS (VCS e)))
            | destruct (GoStrings.HasPrefix (Repo e) github)];
            now inversion He. }
        exists c. split; [exact Hc |]. right. split; [exact Hok |].
        exists k, e, post. rewrite Hacc. auto.
    + rewrite (InitHandler_delivers ext c h Hc), (configure_negative c h a Ha Hneg) in H.
      injection H as <- <-. simpl.
      exists c. split; [exact Hc |]. left. eauto.
  - rewrite Herr in H. injection H as <- <-. now rewrite Hearly.
Qed.

Lemma InitHandler_failure_state_witness :
  InitHandler (served secondEntryBad) published
  = (inl (CannotInferVCS "/b" "https://example.com/b"),
     snd (InitHandler (served secondEntryBad) published))
  /\ snd (InitHandler (served secondEntryBad) published)
     = {| host := "other.example.org";
          cacheControl := "public, max-age=60";
          paths := [entry "/lib";
                    {| path := "/a"; repo := "https://github.com/org/a";
                       display := inferDisplay (onGithub "org/a");
                       vcs := "git" |}] |}.
Proof.
  split; [reflexivity |].
  destruct (InitHandler_failure_state (served secondEntryBad) published _ _ eq_refl)
    as (c & (_ & _ & Hc) & [(Herr & _) | (_ & k & e & post & _ & _ & Hh')]).
  - discriminate Herr.
  - injection Hc as <-. exact Hh'.
Defined.

(** C4 as stated fails: a document whose second entry is rejected returns
    an error after the published handler has lost its host and its cache
    control and has gained the first entry, appended after ["/lib"]
    without sorting. *)
Lemma failed_build_changes_handler :
  fst (InitHandler (served secondEntryBad) published)
  = inl (CannotInferVCS "/b" "https://example.com/b")
  /\ host (snd (InitHandler (served secondEntryBad) published)) = "other.example.org"
  /\ cacheControl (snd (InitHandler (served secondEntryBad) published))
     = "public, max-age=60"
  /\ map path (paths (snd (InitHandler (served secondEntryBad) published)))
     = ["/lib"; "/a"]
  /\ snd (InitHandler (served secondEntryBad) published) <> published.
Proof.
  repeat split; try reflexivity.
  intro H. apply (f_equal host) in H. discriminate H.
Qed.

(** C5, as the code has it: no rule looks at the repo field alone.  An
    entry whose repo field is empty is accepted exactly when its vcs field
    is one of bzr, git, hg, svn.  When the vcs field is empty or unknown,
    the build of every document that contains the entry returns an error
    and never succeeds, and the handler is not rolled back: after a
    negative cache age its host alone is overwritten; otherwise it is left
    with the host and the cache control of the document and with the
    entries visited before the first rejected one appended.  When the
    entry is the first rejected one the loop visits, the error cites its
    key (cannot infer VCS for an empty vcs field, unknown VCS
    otherwise). *)
Theorem empty_repo_build (ext : external) (c : config) (h : Handler)
        (k : string) (e : pathSpec) :
  delivers ext c -> In (k, e) (Paths c) -> Repo e = "" ->
  validEntry (k, e) = knownVCS (VCS e)
  /\ (knownVCS (VCS e) = false ->
      (forall h', InitHandler ext h <> (inr tt, h'))
      /\ (forall a, CacheAge c = Some a -> (a < 0)%Z ->
            InitHandler ext h
            = (inl NegativeCacheAge,
               {| host := Host c; cacheControl := cacheControl h; paths := paths h |}))
      /\ (cacheAgeOK c ->
          exists k' e' post err,
            Paths c = (acceptedPrefix (Paths c) ++ (k', e') :: post)%list
            /\ inferVCS k' e' = inl err
            /\ InitHandler ext h
               = (inl err,
                  {| host := Host c;
                     cacheControl := "public, max-age=" ++ format_d (cacheAgeOf c);
                     paths :=
                       (paths h
                        ++ map (fun kv =>
                                  {| path := GoStrings.TrimSuffix (fst kv) "/";
                                     repo := Repo (snd kv);
                                     display := inferDisplay (snd kv);
                                     vcs := storedVCS (snd kv) |})
                               (acceptedPrefix (Paths c)))%list |}))
      /\ forall pre post,
           cacheAgeOK c -> Paths c = (pre ++ (k, e) :: post)%list ->
           forallb validEntry pre = true ->
           InitHandler ext h
           = (inl (if (VCS e =? "")%string
                   then CannotInferVCS k ""
                   else UnknownVCS k (VCS e)),
              {| host := Host c;
                 cacheControl := "public, max-age=" ++ format_d (cacheAgeOf c);
                 paths :=
                   (paths h
                    ++ map (fun kv =>
                              {| path := GoStrings.TrimSuffix (fst kv) "/";
                                 repo := Repo (snd kv);
                                 display := inferDisplay (snd kv);
                                 vcs := storedVCS (snd kv) |}) pre)%list |})).
Proof.
  intros Hc Hin Hrepo.
  assert (inferVCS k e
          = if knownVCS (VCS e) then inr (VCS e)
            else inl (if (VCS e =? "")%string
                      then CannotInferVCS k "" else UnknownVCS k (VCS e))) as Hinfer.
  { unfold inferVCS. rewrite Hrepo.
    destruct (String.eqb_spec (VCS e) "") as [-> | Hne]; simpl; [reflexivity |].
    now destruct (knownVCS (VCS e)). }
  split.
  - unfold validEntry. simpl. rewrite Hinfer. now destruct (knownVCS (VCS e)).
  - intro Hunknown. rewrite Hunknown in Hinfer.
    assert (validEntry (k, e) = false) as Hrej
      by now apply (inferVCS_rejected k e _ Hinfer).
    assert (cacheAgeOK c ->
            exists pre k' e' post err,
              Paths c = (pre ++ (k', e') :: post)%list
              /\ forallb validEntry pre = true /\ inferVCS k' e' = inl err) as Hfirst.
    { intros _.
      destruct (first_invalid (Paths c)) as [Hall | Hsome]; [| exact Hsome].
      rewrite forallb_forall in Hall. rewrite (Hall _ Hin) in Hrej. discriminate. }
    split; [| split; [| split]].
    + intros h' Hsucc.
      destruct (InitHandler_success ext h h' Hsucc) as (c' & Hc' & _ & Hall & _).
      rewrite <- (delivers_unique ext c c' Hc Hc') in Hall.
      rewrite forallb_forall in Hall. rewrite (Hall _ Hin) in Hrej. discriminate.
    + intros a Ha Hneg.
      rewrite (InitHandler_delivers ext c h Hc).
      exact (configure_negative c h a Ha Hneg).
    + intro Hok.
      destruct (Hfirst Hok) as (pre & k' & e' & post & err & Hsplit & Hpre & He).
      destruct (InitHandler_first_rejected ext c h pre post k' e' err
                  Hc Hok Hsplit Hpre He) as (Hacc & Hinit).
      exists k', e', post, err. rewrite Hacc. auto.
    + intros pre post Hok Hsplit Hpre.
      exact (proj2 (InitHandler_first_rejected ext c h pre post k e _
                      Hc Hok Hsplit Hpre Hinfer)).
Qed.

Lemma empty_repo_build_witness :
  delivers (served (document [("/a", onGithub "org/a");
                              ("/x", {| Repo := ""; Display := ""; VCS := "" |})]))
           (document [("/a", onGithub "org/a");
                      ("/x", {| Repo := ""; Display := ""; VCS := "" |})])
  /\ InitHandler (served (document [("/a", onGithub "org/a");
                                    ("/x", {| Repo := ""; Display := ""; VCS := "" |})]))
                 empty
     = (inl (CannotInferVCS "/x" ""),
        {| host := "go.example.com";
           cacheControl := "public, max-age=86400";
           paths := [{| path := "/a"; repo := "https://github.com/org/a";
                        display := inferDisplay (onGithub "org/a");
                        vcs := "git" |}] |}).
Proof.
  split; [apply delivered |].
  destruct (empty_repo_build _ _ empty "/x" {| Repo := ""; Display := ""; VCS := "" |}
              (delivered (document [("/a", onGithub "org/a");
                                    ("/x", {| Repo := ""; Display := ""; VCS := "" |})]))
              (or_intror (or_introl eq_refl)) eq_refl) as (_ & H).
  destruct (H eq_refl) as (_ & _ & _ & Hcite).
  exact (Hcite [("/a", onGithub "org/a")] [] I eq_refl eq_refl).
Defined.

(** C5 as stated fails: an entry with an empty repo field and the explicit
    vcs ["git"] is accepted, and the build stores it with its empty
    repository. *)
Lemma empty_repo_accepted :
  InitHandler (served noRepo) empty
  = (inr tt,
     {| host := "go.example.com";
        cacheControl := "public, max-age=86400";
        paths := [{| path := "/x"; repo := ""; display := ""; vcs := "git" |}] |}).
Proof. reflexivity. Qed.

(** C6, as the code has it: for an entry with no explicit vcs field the
    build infers ["git"] when the repo URL starts with
    ["https://github.com/"], and for every other repo URL, Bitbucket-style
    ones included although the display template is inferred for them, the
    build fails with a cannot-infer-VCS error that cites the key of the
    entry (stated for the first rejected entry the loop visits, the entries
    visited before it being accepted). *)
Theorem vcs_inferred_for_github_only (ext : external) (c : config) (h : Handler)
        (pre post : list (string * pathSpec)) (k : string) (e : pathSpec) :
  delivers ext c -> cacheAgeOK c ->
  Paths c = (pre ++ (k, e) :: post)%list ->
  forallb validEntry pre = true -> VCS e = "" ->
  if GoStrings.HasPrefix (Repo e) github
  then forallb validEntry post = true ->
       exists h', InitHandler ext h = (inr tt, h')
                  /\ In (stored k e "git") (paths h')
  else exists h', InitHandler ext h = (inl (CannotInferVCS k (Repo e)), h').
Proof.
  intros Hc Hok Hsplit Hpre Hvcs.
  rewrite (InitHandler_delivers ext c h Hc), (configure_range c h Hok), Hsplit.
  assert (inferVCS k e
          = if GoStrings.HasPrefix (Repo e) github
            then inr "git" else inl (CannotInferVCS k (Repo e))) as Hinfer.
  { unfold inferVCS. now rewrite Hvcs. }
  destruct (GoStrings.HasPrefix (Repo e) github) eqn:Hgh.
  - intro Hpost.
    assert (validEntry (k, e) = true) as Hk
      by (unfold validEntry; simpl; now rewrite Hinfer).
    assert (forallb validEntry (pre ++ (k, e) :: post) = true) as Hall.
    { rewrite forallb_app. simpl. now rewrite Hpre, Hk, Hpost. }
    rewrite (rangePaths_valid _ _ Hall). eexists. split; [reflexivity |].
    simpl. apply (Permutation_in (l := (paths h ++ map storedEntry (pre ++ (k, e) :: post))%list)).
    + symmetry. apply Sort_perm.
    + apply in_or_app. right. rewrite map_app. apply in_or_app. right. left.
      unfold storedEntry. simpl. now rewrite Hinfer.
  - rewrite (rangePaths_first_invalid pre k e post _ _ Hpre Hinfer). eauto.
Qed.

Lemma vcs_inferred_for_github_only_witness :
  delivers (served abcOnly) abcOnly
  /\ exists h', InitHandler (served abcOnly) empty = (inr tt, h')
                /\ In (stored "/abc" (onGithub "org/abc") "git") (paths h').
Proof.
  assert (delivers (served abcOnly) abcOnly) as Hd.
  { repeat split. exists "paths: ...". split; [reflexivity | discriminate]. }
  split; [exact Hd |].
  exact (vcs_inferred_for_github_only (served abcOnly) abcOnly empty
           [] [] "/abc" (onGithub "org/abc") Hd I eq_refl eq_refl eq_refl eq_refl).
Defined.

(** C6 as stated fails: a Bitbucket-style repo URL is recognized for the
    display template, yet without an explicit vcs field the build rejects
    the entry. *)
Lemma bitbucket_vcs_not_inferred :
  inferDisplay onBitbucket
  = "https://bitbucket.org/org/x https://bitbucket.org/org/x/src/default{/dir} https://bitbucket.org/org/x/src/default{/dir}/{file}#{file}-{line}"
  /\ InitHandler (served (document [("/x", onBitbucket)])) empty
     = (inl (CannotInferVCS "/x" "https://bitbucket.org/org/x"),
        {| host := "go.example.com";
           cacheControl := "public, max-age=86400";
           paths := [] |}).
Proof. split; reflexivity. Qed.

(** C1 does not hold of the slow path of [find]: with the single entry
    ["/abc"] built from a document, the request ["/abcd"] is answered with
    that entry and the subpath ["d"], although ["/abc"] is not followed by
    a ["/"] in the request. *)
Theorem find_ignores_boundary :
  fst (InitHandler (served abcOnly) empty) = inr tt
  /\ map path (paths (built abcOnly)) = ["/abc"]
  /\ ancestor "/abc" "/abcd" = false
  /\ find [entry "/abc"] "/abcd" = (Some (0, entry "/abc"), "d")
  /\ HandleImport (built abcOnly) (request "/abcd")
     = ServeVanity "public, max-age=86400" "go.example.com/abc" "d"
                   "https://github.com/org/abc"
                   (inferDisplay (onGithub "org/abc")) "git".
Proof. repeat split. Qed.

(** C2 does not hold when the slow path of [find] answers: with the
    entries ["/abc"] and ["/abc-x"], the request ["/abc" ++ "/" ++ "y"] is
    answered with the entry ["/abc"], the only prefix-ancestor, but with the
    subpath ["/y"], the separator still in front, where the fast path would
    have given ["y"]. *)
Theorem find_subpath_keeps_separator :
  fst (InitHandler (served abcAndDash) empty) = inr tt
  /\ map path (paths (built abcAndDash)) = ["/abc"; "/abc-x"]
  /\ ancestor "/abc-x" ("/abc" ++ "/" ++ "y") = false
  /\ find [entry "/abc"; entry "/abc-x"] ("/abc" ++ "/" ++ "y")
     = (Some (0, entry "/abc"), "/y")
  /\ find [entry "/abc"] ("/abc" ++ "/" ++ "y") = (Some (0, entry "/abc"), "y")
  /\ HandleImport (built abcAndDash) (request "/abc/y")
     = ServeVanity "public, max-age=86400" "go.example.com/abc" "/y"
                   "https://github.com/org/abc"
                   (inferDisplay (onGithub "org/abc")) "git".
Proof. repeat split. Qed.

(** C3 does not hold when the slow path of [find] answers: with the
    entries ["/a"] and ["/a/b"], the only prefix-ancestor of the request
    ["/a/bc"] is ["/a"], yet the entry returned is ["/a/b"] with the subpath
    ["c"].  The example of the claim itself, the request ["/a/b/c"], is
    answered as the claim says. *)
Theorem find_prefers_longer_non_ancestor :
  fst (InitHandler (served nested) empty) = inr tt
  /\ map path (paths (built nested)) = ["/a"; "/a/b"]
  /\ ancestor "/a" "/a/bc" = true
  /\ ancestor "/a/b" "/a/bc" = false
  /\ find [entry "/a"; entry "/a/b"] "/a/bc" = (Some (1, entry "/a/b"), "c")
  /\ find [entry "/a"; entry "/a/b"] "/a/b/c" = (Some (1, entry "/a/b"), "c")
  /\ HandleImport (built nested) (request "/a/bc")
     = ServeVanity "public, max-age=86400" "go.example.com/a/b" "c"
                   "https://github.com/org/b"
                   (inferDisplay (onGithub "org/b")) "git".
Proof. repeat split. Qed.

(** C10 does not hold for the root key: the keys ["/"] and ["-x"] build
    successfully, the root is stored as the empty path, and the request
    ["" ++ "/"] matches no entry, so that [HandleImport] serves the index;
    with the root key alone the same request is answered with the root
    entry. *)
Theorem find_root_slash_falls_through :
  fst (InitHandler (served rootAndDash) empty) = inr tt
  /\ map path (paths (built rootAndDash)) = [""; "-x"]
  /\ find (paths (built rootAndDash)) ("" ++ "/") = (None, "")
  /\ find [entry ""; entry "-x"] ("" ++ "/") = (None, "")
  /\ find [entry ""] ("" ++ "/") = (Some (0, entry ""), "")
  /\ HandleImport (built rootAndDash) (request "/")
     = ServeIndex "go.example.com" ["go.example.com"; "go.example.com-x"].
Proof. repeat split. Qed.

(** * Further properties of the code *)

(** ** Helpers *)

Lemma search_loop_ext (f g : nat -> bool) (fuel : nat) : forall i j,
  (forall k, k < j -> f k = g k) ->
  GoSort.search_loop fuel f i j = GoSort.search_loop fuel g i j.
Proof.
  induction fuel as [| fuel IH]; intros i j Hfg; [reflexivity |].
  rewrite !search_loop_S.
  destruct (Nat.ltb_spec i j) as [Hlt | Hge]; trivial.
  pose proof (midpoint i j Hlt) as Hh.
  rewrite <- (Hfg ((i + j) / 2)) by lia.
  destruct (f ((i + j) / 2)); apply IH; intros k Hk; apply Hfg; lia.
Qed.

Lemma append_inj_l (a x y : string) : a ++ x = a ++ y -> x = y.
Proof.
  induction a as [| c a IH]; simpl; intro H; [exact H |].
  injection H as H. auto.
Qed.

Lemma append_empty_r (a : string) : a ++ "" = a.
Proof. induction a as [| c a IH]; simpl; [reflexivity | now rewrite IH]. Qed.

Lemma leb_ltb_false (a b : string) : String.leb a b = true -> String.ltb b a = false.
Proof.
  intro H. destruct (String.ltb b a) eqn:E; trivial.
  apply ltb_not_leb in E. congruence.
Qed.

(** In a sorted set every stored path that the request properly extends
    lies before the index found by the binary search. *)
Lemma prefix_before (pset : pathConfigSet) (R t : string) (j : nat) (e : pathConfig) :
  sorted pset -> nth_error pset j = Some e -> R = path e ++ t -> t <> "" ->
  j < searchIndex pset R.
Proof.
  intros Hs He HR Ht.
  destruct (searchIndex_spec pset R Hs) as (_ & _ & Hhi).
  destruct (Nat.lt_ge_cases j (searchIndex pset R)) as [H | H]; trivial.
  specialize (Hhi j e H He).
  assert (String.ltb (path e) R = true) as Hlt
    by (rewrite HR; now apply ltb_append).
  apply ltb_not_leb in Hlt. congruence.
Qed.

Lemma filter_all {A} (f : A -> bool) (l : list A) :
  (forall x, In x l -> f x = true) -> filter f l = l.
Proof.
  induction l as [| a l IH]; intro H; simpl; [reflexivity |].
  rewrite (H a (or_introl eq_refl)), IH; trivial.
  intros x Hx. apply H. now right.
Qed.

Lemma filter_none {A} (f : A -> bool) (l : list A) :
  (forall x, In x l -> f x = false) -> filter f l = [].
Proof.
  induction l as [| a l IH]; intro H; simpl; [reflexivity |].
  rewrite (H a (or_introl eq_refl)). apply IH.
  intros x Hx. apply H. now right.
Qed.

Lemma nth_error_in_range (pset : pathConfigSet) (i : nat) :
  i < length pset -> exists e, nth_error pset i = Some e.
Proof.
  intro H. destruct (nth_error pset i) as [e |] eqn:He; [now exists e |].
  apply nth_error_None in He. lia.
Qed.

Lemma sorted_example : sorted [entry "/a"; entry "/b"].
Proof. repeat constructor. Qed.

(** ** The resolver *)

(** X1: whatever the entry set, sorted or not, an entry returned by [find]
    is the one stored at the index returned, its path is a byte prefix of
    the request path, and the subpath is the rest of the request: empty
    for an exact match, the part after the separator ["/"], or, from the
    slow path, a non-empty rest taken right after a non-empty entry path,
    separator included if there is one. *)
Theorem find_returns_stored_prefix (pset : pathConfigSet) (R : string)
        (k : nat) (e : pathConfig) (sub : string) :
  find pset R = (Some (k, e), sub) ->
  nth_error pset k = Some e
  /\ k < length pset
  /\ GoStrings.HasPrefix R (path e) = true
  /\ ((R = path e /\ sub = "")
      \/ R = path e ++ "/" ++ sub
      \/ (R = path e ++ sub /\ path e <> "" /\ sub <> "")).
Proof.
  intro H. destruct (find_sound pset R k e sub H) as (Hk & Hcases).
  split; [exact Hk |].
  split; [apply nth_error_Some; congruence |].
  destruct Hcases as [(Hp & Hsub) | [HR | (HR & Hlen & Hsublen)]].
  - split; [rewrite Hp; apply HasPrefix_refl | left; auto].
  - split; [rewrite HR; apply HasPrefix_append | right; left; exact HR].
  - split; [rewrite HR; apply HasPrefix_append |].
    right. right. split; [exact HR |].
    assert (String.length R = String.length (path e) + String.length sub) as Hsum
      by (rewrite HR at 1; apply length_append).
    split; intro Hempty; rewrite Hempty in Hsum; simpl in Hsum; lia.
Qed.

Lemma find_returns_stored_prefix_witness :
  find [entry "/a"; entry "/b"] "/b/c" = (Some (1, entry "/b"), "c")
  /\ nth_error [entry "/a"; entry "/b"] 1 = Some (entry "/b").
Proof.
  split; [reflexivity |].
  exact (proj1 (find_returns_stored_prefix [entry "/a"; entry "/b"] "/b/c"
                  1 (entry "/b") "c" eq_refl)).
Defined.

(** X2: [find] stays inside the slice, sorted or not: the index the
    binary search returns is at most [len(pset)], so [pset[i-1]] exists
    whenever [i > 0], and the search evaluates its predicate below
    [len(pset)] only (a predicate that agrees with it there gives the same
    index). *)
Theorem find_in_bounds (pset : pathConfigSet) (R : string) :
  searchIndex pset R <= length pset
  /\ (forall j, searchIndex pset R = S j -> exists e, nth_error pset j = Some e)
  /\ (forall g, (forall k, k < length pset -> g k = searchPred pset R k) ->
                GoSort.Search (length pset) g = searchIndex pset R).
Proof.
  assert (searchIndex pset R <= length pset) as Hle by apply Search_le.
  split; [exact Hle | split].
  - intros j Hj.
    destruct (nth_error pset j) as [e |] eqn:He; [now exists e |].
    apply nth_error_None in He. lia.
  - intros g Hg. unfold searchIndex, GoSort.Search.
    apply search_loop_ext. intros k Hk. now apply Hg.
Qed.

(** X3: on a sorted entry set the index the binary search returns is the
    number of stored paths strictly below the request path. *)
Theorem searchIndex_counts_below (pset : pathConfigSet) (R : string) :
  sorted pset ->
  searchIndex pset R = length (filter (fun e => String.ltb (path e) R) pset).
Proof.
  intro Hs.
  destruct (searchIndex_spec pset R Hs) as (Hle & Hlo & Hhi).
  rewrite <- (firstn_skipn (searchIndex pset R) pset) at 2.
  rewrite filter_app, length_app, filter_all, filter_none.
  - simpl. rewrite firstn_length_le; lia.
  - intros x Hx. apply In_nth_error in Hx as [k Hk].
    rewrite nth_error_skipn in Hk.
    apply leb_ltb_false. apply (Hhi (searchIndex pset R + k) x); [lia | exact Hk].
  - intros x Hx. apply In_nth_error in Hx as [k Hk].
    rewrite nth_error_firstn in Hk.
    destruct (Nat.ltb_spec k (searchIndex pset R)); [| discriminate].
    now apply (Hlo k x).
Qed.

Lemma searchIndex_counts_below_witness :
  sorted [entry "/a"; entry "/b"]
  /\ searchIndex [entry "/a"; entry "/b"] "/b"
     = length (filter (fun e => String.ltb (path e) "/b") [entry "/a"; entry "/b"]).
Proof.
  split; [exact sorted_example |].
  exact (searchIndex_counts_below [entry "/a"; entry "/b"] "/b" sorted_example).
Defined.

Lemma HasPrefix_cases (R p : string) :
  GoStrings.HasPrefix R p = true -> R = p \/ exists t, R = p ++ t /\ t <> "".
Proof.
  intro H. pose proof (HasPrefix_split R p H) as HR.
  destruct (GoStrings.slice_from (String.length p) R) as [| c t] eqn:E.
  - left. now rewrite append_empty_r in HR.
  - right. exists (String c t). split; [exact HR | discriminate].
Qed.

(** X4: on a sorted entry set [find] is a longest-prefix match on bytes:
    no stored path that is a byte prefix of the request path, followed by
    a ["/"] there or not, is longer than the path of the entry returned. *)
Theorem find_longest_stored_prefix (pset : pathConfigSet) (R : string)
        (k : nat) (e : pathConfig) (sub : string) :
  sorted pset -> find pset R = (Some (k, e), sub) ->
  forall j e', nth_error pset j = Some e' ->
               GoStrings.HasPrefix R (path e') = true ->
               String.length (path e') <= String.length (path e).
Proof.
  intros Hs Hfind j e' He' Hpre'.
  pose proof (HasPrefix_length R (path e') Hpre') as Hlen'.
  destruct (find_cases pset R)
    as [(e0 & He0 & Hp & Hf)
       | [(Hno & i & e0 & Hi & He0 & Hpre & Hf) | (Hno & _ & Hf)]];
    rewrite Hf in Hfind.
  - injection Hfind as <- <- <-. rewrite Hp. lia.
  - injection Hfind as <- <- <-.
    destruct (HasPrefix_cases R (path e') Hpre') as [Heq | (t & HR & Ht)];
      [symmetry in Heq; now apply (exact_found pset R j e' Hs He') in Hno |].
    destruct (Nat.le_gt_cases (String.length (path e')) (String.length (path e0)))
      as [Hle | Hgt]; trivial.
    exfalso.
    pose proof (HasPrefix_split R (path e0 ++ "/") Hpre) as HR0.
    rewrite append_assoc in HR0.
    assert (exists u, path e' = path e0 ++ u) as [u Hu].
    { apply (prefixes_nest (path e0) (path e')
                           ("/" ++ GoStrings.slice_from (String.length (path e0 ++ "/")) R)
                           t); [| lia].
      rewrite <- HR0. exact HR. }
    assert (u <> "") as Hne.
    { intros ->. rewrite Hu, length_append in Hgt. simpl in Hgt. lia. }
    pose proof (prefix_before pset R t j e' Hs He' HR Ht) as Hj.
    assert (path_le e' e0) as Hle
      by (apply (sorted_nth pset Hs j i); trivial; lia).
    unfold path_le in Hle. rewrite Hu in Hle.
    rewrite (ltb_not_leb _ _ (ltb_append (path e0) u Hne)) in Hle. discriminate.
  - destruct (HasPrefix_cases R (path e') Hpre') as [Heq | (t & HR & Ht)];
      [symmetry in Heq; now apply (exact_found pset R j e' Hs He') in Hno |].
    destruct (findLoop_spec R (firstn (searchIndex pset R) pset) 0 None ""
                            (String.length R))
      as [(Hb & _) | (i & ps & Heq & Hnth & Hlen & Hlt & Hmin)].
    + rewrite Hfind in Hb. discriminate.
    + rewrite Heq in Hfind. injection Hfind as <- <- <-.
      pose proof (prefix_before pset R t j e' Hs He' HR Ht) as Hj.
      assert (In e' (firstn (searchIndex pset R) pset)) as Hin.
      { apply (nth_error_In _ j). rewrite nth_error_firstn.
        destruct (Nat.ltb_spec j (searchIndex pset R)); [exact He' | lia]. }
      assert (String.length (path e') < String.length R) as Hshort.
      { rewrite HR, length_append. destruct t; [congruence | simpl; lia]. }
      specialize (Hmin e' Hin Hshort).
      destruct (TrimPrefix_length R (path ps) Hlt) as (_ & Hps).
      unfold GoStrings.TrimPrefix in Hmin at 2. rewrite Hpre' in Hmin. lia.
Qed.

Lemma find_longest_stored_prefix_witness :
  sorted [entry "/a"; entry "/b"]
  /\ find [entry "/a"; entry "/b"] "/b/c" = (Some (1, entry "/b"), "c")
  /\ String.length (path (entry "/b")) <= String.length (path (entry "/b")).
Proof.
  split; [exact sorted_example | split; [reflexivity |]].
  exact (find_longest_stored_prefix [entry "/a"; entry "/b"] "/b/c" 1 (entry "/b") "c"
           sorted_example eq_refl 1 (entry "/b") eq_refl eq_refl).
Defined.

Lemma find_some_of_prefix (pset : pathConfigSet) (R : string)
      (j : nat) (e : pathConfig) :
  sorted pset -> nth_error pset j = Some e -> path e <> "" ->
  GoStrings.HasPrefix R (path e) = true ->
  exists m sub, find pset R = (Some m, sub).
Proof.
  intros Hs He Hne Hpre.
  destruct (find_cases pset R)
    as [(e0 & He0 & Hp & Hf)
       | [(Hno & i & e0 & Hi & He0 & Hpre0 & Hf) | (Hno & _ & Hf)]];
    rewrite Hf; eauto.
  destruct (HasPrefix_cases R (path e) Hpre) as [Heq | (t & HR & Ht)];
    [symmetry in Heq; now apply (exact_found pset R j e Hs He) in Hno |].
  destruct (findLoop_spec R (firstn (searchIndex pset R) pset) 0 None ""
                          (String.length R))
    as [(_ & _ & Hmin) | (i & ps & Heq & _)]; [| rewrite Heq; eauto].
  exfalso.
  pose proof (prefix_before pset R t j e Hs He HR Ht) as Hj.
  assert (In e (firstn (searchIndex pset R) pset)) as Hin.
  { apply (nth_error_In _ j). rewrite nth_error_firstn.
    destruct (Nat.ltb_spec j (searchIndex pset R)); [exact He | lia]. }
  assert (String.length (path e) < String.length R) as Hshort.
  { rewrite HR, length_append. destruct t; [congruence | simpl; lia]. }
  specialize (Hmin e Hin Hshort).
  pose proof (HasPrefix_length R (path e) Hpre) as Helen.
  unfold GoStrings.TrimPrefix in Hmin. rewrite Hpre in Hmin.
  assert (String.length (path e) <> 0) by (destruct (path e); [congruence | discriminate]).
  lia.
Qed.

(** X5: on a sorted entry set without an empty stored path (no root key),
    [find] returns an entry exactly when some stored path is a byte prefix
    of the request path. *)
Theorem find_matches_iff_prefix (pset : pathConfigSet) (R : string) :
  sorted pset -> (forall e, In e pset -> path e <> "") ->
  (exists m sub, find pset R = (Some m, sub))
  <-> exists e, In e pset /\ GoStrings.HasPrefix R (path e) = true.
Proof.
  intros Hs Hne. split.
  - intros ([k e] & sub & Hfind).
    destruct (find_sound pset R k e sub Hfind) as (Hk & Hcases).
    exists e. split; [now apply (nth_error_In pset k) |].
    destruct Hcases as [(Hp & _) | [HR | (HR & _)]].
    + rewrite Hp. apply HasPrefix_refl.
    + rewrite HR. apply HasPrefix_append.
    + rewrite HR. apply HasPrefix_append.
  - intros (e & Hin & Hpre).
    destruct (In_nth_error pset e Hin) as [j Hj].
    apply (find_some_of_prefix pset R j e); auto.
Qed.

Lemma find_matches_iff_prefix_witness :
  sorted [entry "/a"; entry "/b"]
  /\ (forall e, In e [entry "/a"; entry "/b"] -> path e <> "")
  /\ exists m sub, find [entry "/a"; entry "/b"] "/bc" = (Some m, sub).
Proof.
  assert (forall e, In e [entry "/a"; entry "/b"] -> path e <> "") as Hne.
  { intros e [<- | [<- | []]]; discriminate. }
  split; [exact sorted_example | split; [exact Hne |]].
  apply (proj2 (find_matches_iff_prefix [entry "/a"; entry "/b"] "/bc"
                  sorted_example Hne)).
  exists (entry "/b"). split; [right; left; reflexivity | reflexivity].
Defined.

(** X6: the fast path.  On a sorted entry set, when the request is the
    path of a stored entry followed by ["/"] and a suffix, and every
    stored path is at most that path or strictly above the request, [find]
    returns an entry with that path and exactly the suffix as subpath. *)
Theorem find_fast_path (pset : pathConfigSet) (e : pathConfig) (s : string) :
  sorted pset -> In e pset ->
  (forall e', In e' pset ->
     String.leb (path e') (path e) = true
     \/ String.ltb (path e ++ "/" ++ s) (path e') = true) ->
  exists j e', find pset (path e ++ "/" ++ s) = (Some (j, e'), s)
               /\ path e' = path e.
Proof.
  intros Hs Hin Hgap.
  set (R := path e ++ "/" ++ s) in *.
  destruct (In_nth_error pset e Hin) as [k Hk].
  assert (k < searchIndex pset R) as Hki
    by (apply (ancestor_before pset R s k e Hs Hk); reflexivity).
  destruct (searchIndex_spec pset R Hs) as (Hle & Hlo & Hhi).
  destruct (searchIndex pset R) as [| i] eqn:Hi; [lia |].
  destruct (nth_error_in_range pset i) as [e0 He0]; [lia |].
  assert (path e0 = path e) as Hp.
  { apply String.leb_antisym.
    - destruct (Hgap e0 (nth_error_In pset i He0)) as [H | H]; trivial.
      pose proof (Hlo i e0 (Nat.lt_succ_diag_r i) He0) as Hlt.
      apply ltb_not_leb in Hlt. apply ltb_leb in H. congruence.
    - apply (sorted_nth pset Hs k i); trivial; lia. }
  exists i, e0. split; [| exact Hp].
  unfold R. rewrite <- Hp. apply find_predecessor; rewrite ?Hp; fold R; trivial.
  intros x Hx Hxp. rewrite Hi in Hx.
  destruct (Hgap x (nth_error_In pset (S i) Hx)) as [H | H].
  - rewrite Hxp in H. unfold R in H.
    rewrite (ltb_not_leb _ _ (ltb_append (path e) ("/" ++ s) ltac:(discriminate))) in H.
    discriminate.
  - rewrite Hxp, ltb_irrefl in H. discriminate.
Qed.

Lemma find_fast_path_witness :
  sorted [entry "/a"; entry "/b"]
  /\ In (entry "/b") [entry "/a"; entry "/b"]
  /\ exists j e', find [entry "/a"; entry "/b"] ("/b" ++ "/" ++ "c") = (Some (j, e'), "c")
                  /\ path e' = "/b".
Proof.
  split; [exact sorted_example | split; [right; left; reflexivity |]].
  apply (find_fast_path [entry "/a"; entry "/b"] (entry "/b") "c" sorted_example).
  - right. left. reflexivity.
  - intros e' [<- | [<- | []]]; left; reflexivity.
Defined.

(** ** Serving requests *)

(** X7: every vanity response of [HandleImport] comes from a stored
    entry whose path is a byte prefix of the request path: the import path
    is the effective host followed by that entry's path, the repository,
    display template and VCS are the entry's, the cache control is the
    handler's, and the request path is the entry's path followed by the
    subpath, with or without a ["/"] between them. *)
Theorem HandleImport_vanity_from_entry (h : Handler) (r : Request)
        (cc imp sub rp d v : string) :
  HandleImport h r = ServeVanity cc imp sub rp d v ->
  exists k e,
    nth_error (paths h) k = Some e
    /\ cc = cacheControl h
    /\ imp = Handler_Host h r ++ path e
    /\ rp = repo e /\ d = display e /\ v = vcs e
    /\ (URL_Path r = path e ++ sub \/ URL_Path r = path e ++ "/" ++ sub).
Proof.
  unfold HandleImport.
  destruct (find (paths h) (URL_Path r)) as [[[k e] |] sub'] eqn:Hfind.
  - intro H. injection H as <- <- <- <- <- <-.
    destruct (find_sound _ _ _ _ _ Hfind) as (Hk & Hcases).
    exists k, e. repeat split; trivial.
    destruct Hcases as [(Hp & ->) | [HR | (HR & _)]]; auto.
    left. now rewrite append_empty_r.
  - destruct (String.eqb (URL_Path r) "/"); discriminate.
Qed.

Lemma HandleImport_vanity_from_entry_witness :
  HandleImport published (request "/lib/pkg")
  = ServeVanity "public, max-age=86400" "go.example.com/lib" "pkg"
                "https://github.com/org/x" "" "git"
  /\ exists k e, nth_error (paths published) k = Some e
                 /\ "go.example.com/lib" = Handler_Host published (request "/lib/pkg") ++ path e.
Proof.
  split; [reflexivity |].
  destruct (HandleImport_vanity_from_entry published (request "/lib/pkg")
              _ _ _ _ _ _ eq_refl) as (k & e & Hk & _ & Himp & _).
  exists k, e. auto.
Defined.

(** X8: once the handler has a configured host, the [Host] header of the
    request has no influence on the response. *)
Theorem HandleImport_ignores_request_host (h : Handler) (p rh1 rh2 : string) :
  host h <> "" ->
  HandleImport h {| URL_Path := p; Request_Host := rh1 |}
  = HandleImport h {| URL_Path := p; Request_Host := rh2 |}.
Proof.
  intro Hhost. unfold HandleImport, serveIndex, Handler_Host. simpl.
  destruct (String.eqb_spec (host h) ""); [contradiction | reflexivity].
Qed.

Lemma HandleImport_ignores_request_host_witness :
  host published <> ""
  /\ HandleImport published {| URL_Path := "/lib"; Request_Host := "a.example" |}
     = HandleImport published {| URL_Path := "/lib"; Request_Host := "b.example" |}.
Proof.
  assert (host published <> "") as H by discriminate.
  split; [exact H |].
  exact (HandleImport_ignores_request_host published "/lib" "a.example" "b.example" H).
Defined.

Lemma compare_append_l (a b c : string) :
  String.compare (a ++ b) (a ++ c) = String.compare b c.
Proof.
  induction a as [| x a IH]; simpl; [reflexivity |].
  now rewrite ascii_compare_refl.
Qed.

Lemma sorted_map_prefix (hst : string) (l : pathConfigSet) :
  sorted l -> StronglySorted string_le (map (fun e => hst ++ path e) l).
Proof.
  induction 1 as [| x l Hl IH Hx]; simpl; constructor; trivial.
  rewrite Forall_map. eapply Forall_impl; [| exact Hx].
  intros a Ha. unfold string_le, path_le, String.leb in *.
  now rewrite compare_append_l.
Qed.

(** X9: after a successful build the index page lists one import path
    per stored entry, each the effective host followed by the stored path,
    in ascending byte order. *)
Theorem index_listing_sorted (ext : external) (h h' : Handler) (r : Request) :
  InitHandler ext h = (inr tt, h') ->
  exists hs,
    serveIndex h' r = ServeIndex (Handler_Host h' r) hs
    /\ hs = map (fun e => Handler_Host h' r ++ path e) (paths h')
    /\ length hs = length (paths h')
    /\ StronglySorted string_le hs.
Proof.
  intro H.
  destruct (InitHandler_success ext h h' H) as (c & _ & _ & _ & Hh').
  eexists. split; [reflexivity | split; [reflexivity | split]].
  - apply length_map.
  - apply sorted_map_prefix. rewrite Hh'. simpl. apply Sort_sorted.
Qed.

Lemma index_listing_sorted_witness :
  InitHandler (served nested) empty = (inr tt, built nested)
  /\ exists hs, serveIndex (built nested) (request "/")
                = ServeIndex (Handler_Host (built nested) (request "/")) hs
                /\ StronglySorted string_le hs.
Proof.
  split; [reflexivity |].
  destruct (index_listing_sorted (served nested) empty (built nested) (request "/") eq_refl)
    as (hs & Hs & _ & _ & Hsorted).
  exists hs. auto.
Defined.

(** ** Building the configuration *)

(** X10: the build succeeds exactly when the collaborators deliver a
    document (status 200, a non-empty body that parses), its cache age, if
    any, is not negative, and every entry either names one of bzr, git, hg,
    svn or names no VCS and has a repository under
    ["https://github.com/"]; the display field and the key play no part. *)
Theorem InitHandler_succeeds_iff (ext : external) (h : Handler) :
  (exists h', InitHandler ext h = (inr tt, h'))
  <-> exists c, delivers ext c /\ cacheAgeOK c
                /\ forall k e, In (k, e) (Paths c) -> accepted e.
Proof.
  split.
  - intros [h' H].
    destruct (InitHandler_success ext h h' H) as (c & Hc & Hok & Hall & _).
    exists c. split; [exact Hc | split; [exact Hok |]].
    intros k e Hin. apply (validEntry_accepted k).
    rewrite forallb_forall in Hall. now apply Hall.
  - intros (c & Hc & Hok & Hall).
    assert (forallb validEntry (Paths c) = true) as Hvalid.
    { apply forallb_forall. intros [k e] Hin. apply validEntry_accepted. eauto. }
    rewrite (InitHandler_delivers ext c h Hc), (configure_range c h Hok).
    rewrite (rangePaths_valid _ _ Hvalid). eauto.
Qed.

(** X11: a successful build overwrites the host and the cache control
    (["public, max-age="] and the given age, 86400 when none is given) and
    keeps every entry stored before, adding one entry per key of the
    document: a second build appends to the first instead of replacing
    it. *)
Theorem InitHandler_success_state (ext : external) (h h' : Handler) :
  InitHandler ext h = (inr tt, h') ->
  exists c, delivers ext c
    /\ host h' = Host c
    /\ cacheControl h' = "public, max-age=" ++ format_d (cacheAgeOf c)
    /\ (CacheAge c = None -> cacheControl h' = "public, max-age=86400")
    /\ Permutation (paths h') (paths h ++ map storedEntry (Paths c))%list
    /\ length (paths h') = length (paths h) + length (Paths c).
Proof.
  intro H.
  destruct (InitHandler_success ext h h' H) as (c & Hc & _ & _ & ->).
  exists c. split; [exact Hc |]. simpl.
  split; [reflexivity | split; [reflexivity | split; [| split]]].
  - unfold cacheAgeOf. now intros ->.
  - apply Sort_perm.
  - rewrite (Permutation_length (Sort_perm _)), length_app, length_map. reflexivity.
Qed.

Lemma InitHandler_success_state_witness :
  InitHandler (served nested) published = (inr tt, snd (InitHandler (served nested) published))
  /\ length (paths (snd (InitHandler (served nested) published))) = 3.
Proof.
  split; [reflexivity |].
  destruct (InitHandler_success_state (served nested) published _ eq_refl)
    as (c & (_ & _ & Hc) & _ & _ & _ & _ & Hlen).
  injection Hc as <-. exact Hlen.
Defined.

(** X12: an explicit VCS other than bzr, git, hg, svn fails the build
    with an unknown-VCS error citing the key and the VCS, whatever the
    repository is (the GitHub rule is not consulted); the entries visited
    before it stay appended to the handler, whose host and cache control
    are already overwritten. *)
Theorem unknown_vcs_rejected (ext : external) (c : config) (h : Handler)
        (pre post : list (string * pathSpec)) (k : string) (e : pathSpec) :
  delivers ext c -> cacheAgeOK c ->
  Paths c = (pre ++ (k, e) :: post)%list ->
  forallb validEntry pre = true ->
  VCS e <> "" -> knownVCS (VCS e) = false ->
  InitHandler ext h
  = (inl (UnknownVCS k (VCS e)),
     with_paths (assigned c h) (paths h ++ map storedEntry pre)%list).
Proof.
  intros Hc Hok Hsplit Hpre Hne Hunknown.
  rewrite (InitHandler_delivers ext c h Hc), (configure_range c h Hok), Hsplit.
  assert (inferVCS k e = inl (UnknownVCS k (VCS e))) as Hinfer.
  { unfold inferVCS. destruct (String.eqb_spec (VCS e) ""); [contradiction |].
    simpl. now rewrite Hunknown. }
  now rewrite (rangePaths_first_invalid pre k e post _ _ Hpre Hinfer).
Qed.

Lemma unknown_vcs_rejected_witness :
  InitHandler (served (document [("/x", {| Repo := "https://github.com/org/x";
                                           Display := ""; VCS := "Git" |})])) empty
  = (inl (UnknownVCS "/x" "Git"),
     {| host := "go.example.com"; cacheControl := "public, max-age=86400"; paths := [] |}).
Proof.
  exact (unknown_vcs_rejected
           (served (document [("/x", {| Repo := "https://github.com/org/x";
                                        Display := ""; VCS := "Git" |})]))
           (document [("/x", {| Repo := "https://github.com/org/x";
                                Display := ""; VCS := "Git" |})])
           empty [] [] "/x"
           {| Repo := "https://github.com/org/x"; Display := ""; VCS := "Git" |}
           (delivered _) I eq_refl eq_refl ltac:(discriminate) eq_refl).
Defined.

(** X13: a negative cache age fails the build before any entry is looked
    at, whatever the entries are; the handler keeps its cache control and
    its entries, but its host is already overwritten. *)
Theorem negative_cache_age_rejected (ext : external) (c : config) (h : Handler) (a : Z) :
  delivers ext c -> CacheAge c = Some a -> (a < 0)%Z ->
  InitHandler ext h
  = (inl NegativeCacheAge,
     {| host := Host c; cacheControl := cacheControl h; paths := paths h |}).
Proof.
  intros Hc Ha Hneg.
  rewrite (InitHandler_delivers ext c h Hc). exact (configure_negative c h a Ha Hneg).
Qed.

Lemma negative_cache_age_rejected_witness :
  InitHandler (served {| Host := "other.example.org"; CacheAge := Some (-1)%Z;
                         Paths := [("/x", onBitbucket)] |}) published
  = (inl NegativeCacheAge,
     {| host := "other.example.org";
        cacheControl := "public, max-age=86400";
        paths := [entry "/lib"] |}).
Proof.
  exact (negative_cache_age_rejected
           (served {| Host := "other.example.org"; CacheAge := Some (-1)%Z;
                      Paths := [("/x", onBitbucket)] |})
           {| Host := "other.example.org"; CacheAge := Some (-1)%Z;
              Paths := [("/x", onBitbucket)] |}
           published (-1)%Z (delivered _) eq_refl eq_refl).
Defined.

(** X14: builds keep the stored VCS kinds recognized: if every entry
    stored before has one of bzr, git, hg, svn, so has every entry after a
    successful build. *)
Theorem InitHandler_vcs_invariant (ext : external) (h h' : Handler) :
  (forall pc, In pc (paths h) -> knownVCS (vcs pc) = true) ->
  InitHandler ext h = (inr tt, h') ->
  forall pc, In pc (paths h') -> knownVCS (vcs pc) = true.
Proof.
  intros Hold H pc Hin.
  destruct (InitHandler_success ext h h' H) as (c & _ & _ & Hall & ->).
  simpl in Hin. apply (Permutation_in _ (Sort_perm _)) in Hin.
  apply in_app_or in Hin as [Hin | Hin]; [now apply Hold |].
  apply in_map_iff in Hin as ([k e] & <- & Hin).
  rewrite forallb_forall in Hall. specialize (Hall _ Hin).
  rewrite (storedEntry_fields k e Hall). simpl.
  apply storedVCS_known. now apply (validEntry_accepted k).
Qed.

Lemma InitHandler_vcs_invariant_witness :
  (forall pc, In pc (paths published) -> knownVCS (vcs pc) = true)
  /\ InitHandler (served nested) published
     = (inr tt, snd (InitHandler (served nested) published))
  /\ forall pc, In pc (paths (snd (InitHandler (served nested) published))) ->
                knownVCS (vcs pc) = true.
Proof.
  assert (forall pc, In pc (paths published) -> knownVCS (vcs pc) = true) as Hold.
  { intros pc [<- | []]. reflexivity. }
  split; [exact Hold | split; [reflexivity |]].
  exact (InitHandler_vcs_invariant (served nested) published _ Hold eq_refl).
Defined.

(** X15: a successful build stores every key of the document, and
    nothing else besides the entries stored before: the key without one
    trailing ["/"] as path, the repository as given, the display template
    as given or inferred, and the VCS as given or ["git"]. *)
Theorem InitHandler_stores_every_key (ext : external) (c : config) (h h' : Handler) :
  delivers ext c -> InitHandler ext h = (inr tt, h') ->
  (forall k e, In (k, e) (Paths c) ->
     In {| path := GoStrings.TrimSuffix k "/"; repo := Repo e;
           display := inferDisplay e; vcs := storedVCS e |} (paths h'))
  /\ (forall pc, In pc (paths h') ->
        In pc (paths h)
        \/ exists k e, In (k, e) (Paths c)
             /\ pc = {| path := GoStrings.TrimSuffix k "/"; repo := Repo e;
                        display := inferDisplay e; vcs := storedVCS e |}).
Proof.
  intros Hc H.
  destruct (InitHandler_success ext h h' H) as (c' & Hc' & _ & Hall & ->).
  rewrite <- (delivers_unique ext c c' Hc Hc') in *.
  rewrite forallb_forall in Hall. simpl. split.
  - intros k e Hin. apply (Permutation_in _ (Permutation_sym (Sort_perm _))).
    apply in_or_app. right.
    rewrite <- (storedEntry_fields k e (Hall _ Hin)).
    now apply (in_map storedEntry) in Hin.
  - intros pc Hin. apply (Permutation_in _ (Sort_perm _)) in Hin.
    apply in_app_or in Hin as [Hin | Hin]; [now left |].
    apply in_map_iff in Hin as ([k e] & <- & Hin).
    right. exists k, e. split; [exact Hin |].
    apply storedEntry_fields. now apply Hall.
Qed.

Lemma InitHandler_stores_every_key_witness :
  delivers (served abcOnly) abcOnly
  /\ InitHandler (served abcOnly) empty = (inr tt, built abcOnly)
  /\ In {| path := "/abc"; repo := "https://github.com/org/abc";
           display := inferDisplay (onGithub "org/abc"); vcs := "git" |}
        (paths (built abcOnly)).
Proof.
  split; [apply delivered | split; [reflexivity |]].
  exact (proj1 (InitHandler_stores_every_key (served abcOnly) abcOnly empty
                  (built abcOnly) (delivered abcOnly) eq_refl)
               "/abc" (onGithub "org/abc") (or_introl eq_refl)).
Defined.

Lemma substring_append (a b : string) : substring 0 (String.length a) (a ++ b) = a.
Proof.
  induction a as [| c a IH]; simpl; [now destruct b | now rewrite IH].
Qed.

Lemma TrimSuffix_slash (k : string) : GoStrings.TrimSuffix (k ++ "/") "/" = k.
Proof.
  unfold GoStrings.TrimSuffix, GoStrings.HasSuffix, GoStrings.slice_to.
  rewrite length_append. simpl String.length.
  replace (String.length k + 1 - 1) with (String.length k) by lia.
  rewrite slice_from_append, substring_append.
  destruct (Nat.leb_spec 1 (String.length k + 1)); [reflexivity | lia].
Qed.

(** X16: one trailing ["/"] of a key is dropped when the entry is stored:
    the key [k ++ "/"] is stored under the path [k] (the root key ["/"]
    under the empty path, the key ["/a//"] under ["/a/"]), and a key that
    does not end in ["/"] is stored unchanged. *)
Theorem key_trailing_slash_trimmed (k : string) (e : pathSpec) (v : string) :
  path (stored (k ++ "/") e v) = k
  /\ (GoStrings.HasSuffix k "/" = false -> path (stored k e v) = k).
Proof.
  split; simpl.
  - apply TrimSuffix_slash.
  - intro H. unfold GoStrings.TrimSuffix. now rewrite H.
Qed.

(** ** [pathConfigSet] as a [sort.Interface] *)

(** X17: [Less] is the strict weak order [sort.Sort] asks for: it panics
    exactly on an index out of range, is irreflexive and transitive, its
    negation is transitive, and two entries are unordered both ways
    exactly when they have the same path. *)
Theorem Less_strict_weak_order (pset : pathConfigSet) :
  (forall i j, Less pset i j = None <-> (length pset <= i \/ length pset <= j))
  /\ (forall i, Less pset i i <> Some true)
  /\ (forall i j k, Less pset i j = Some true -> Less pset j k = Some true ->
                    Less pset i k = Some true)
  /\ (forall i j k, Less pset i j = Some false -> Less pset j k = Some false ->
                    Less pset i k = Some false)
  /\ (forall i j a b, nth_error pset i = Some a -> nth_error pset j = Some b ->
        (Less pset i j = Some false /\ Less pset j i = Some false
         <-> path a = path b)).
Proof.
  unfold Less, less, GoStrings.lt.
  split; [| split; [| split; [| split]]].
  - intros i j. split.
    + intro H.
      destruct (nth_error pset i) eqn:Ei; [| left; now apply nth_error_None].
      destruct (nth_error pset j) eqn:Ej;
        [discriminate | right; now apply nth_error_None].
    + intros [H | H]; apply nth_error_None in H; rewrite H; trivial.
      now destruct (nth_error pset i).
  - intro i. destruct (nth_error pset i) as [a |]; [| discriminate].
    rewrite ltb_irrefl. discriminate.
  - intros i j k.
    destruct (nth_error pset i) as [a |], (nth_error pset j) as [b |],
             (nth_error pset k) as [c |]; try discriminate.
    intros [= Hab] [= Hbc]. f_equal.
    apply ltb_lt. apply String_as_OT.lt_trans with (path b); now apply ltb_lt.
  - intros i j k.
    destruct (nth_error pset i) as [a |], (nth_error pset j) as [b |],
             (nth_error pset k) as [c |]; try discriminate.
    intros [= Hab] [= Hbc]. f_equal.
    apply leb_ltb_false. apply leb_trans with (path b); now apply ltb_false_leb.
  - intros i j a b Ha Hb. rewrite Ha, Hb. split.
    + intros [[= Hab] [= Hba]].
      apply String.leb_antisym; now apply ltb_false_leb.
    + intros ->. now rewrite ltb_irrefl.
Qed.

Lemma set_at_length (l : pathConfigSet) : forall i x,
  length (set_at l i x) = length l.
Proof.
  induction l as [| y l IH]; intros [| i] x; simpl; auto.
Qed.

Lemma nth_error_set_at_eq (l : pathConfigSet) : forall i x,
  i < length l -> nth_error (set_at l i x) i = Some x.
Proof.
  induction l as [| y l IH]; intros [| i] x H; simpl in *; try lia; trivial.
  apply IH. lia.
Qed.

Lemma nth_error_set_at_ne (l : pathConfigSet) : forall i k x,
  k <> i -> nth_error (set_at l i x) k = nth_error l k.
Proof.
  induction l as [| y l IH]; intros [| i] [| k] x H; simpl; trivial;
    try contradiction.
  apply IH. lia.
Qed.

Lemma set_at_perm (l : pathConfigSet) : forall i x y,
  nth_error l i = Some y -> Permutation (x :: l) (y :: set_at l i x).
Proof.
  induction l as [| z l IH]; intros [| i] x y H; simpl in *; try discriminate.
  - injection H as ->. apply perm_swap.
  - rewrite perm_swap. rewrite (IH i x y H). apply perm_swap.
Qed.

(** X18: [Swap] panics exactly on an index out of range; otherwise it
    exchanges the elements at the two indices and touches nothing else,
    so the slice keeps its length and its elements. *)
Theorem Swap_exchanges (pset : pathConfigSet) (i j : nat) :
  (Swap pset i j = None <-> (length pset <= i \/ length pset <= j))
  /\ forall pset', Swap pset i j = Some pset' ->
       length pset' = length pset
       /\ Permutation pset pset'
       /\ nth_error pset' i = nth_error pset j
       /\ nth_error pset' j = nth_error pset i
       /\ forall k, k <> i -> k <> j -> nth_error pset' k = nth_error pset k.
Proof.
  unfold Swap. split.
  - split.
    + intro H.
      destruct (nth_error pset i) eqn:Ei; [| left; now apply nth_error_None].
      destruct (nth_error pset j) eqn:Ej; [discriminate | right; now apply nth_error_None].
    + intros [H | H]; apply nth_error_None in H; rewrite H; trivial.
      now destruct (nth_error pset i).
  - intros pset'.
    destruct (nth_error pset i) as [a |] eqn:Ei; [| discriminate].
    destruct (nth_error pset j) as [b |] eqn:Ej; [| discriminate].
    intros [= <-].
    assert (i < length pset) as Hi by (apply nth_error_Some; congruence).
    assert (j < length pset) as Hj by (apply nth_error_Some; congruence).
    assert (nth_error (set_at pset i b) j = Some b) as Hjb.
    { destruct (Nat.eq_dec j i) as [-> | Hne].
      - now apply nth_error_set_at_eq.
      - now rewrite nth_error_set_at_ne. }
    split; [now rewrite !set_at_length |].
    split; [| split; [| split]].
    + apply (Permutation_cons_inv (a := b)).
      rewrite (set_at_perm pset i b a Ei).
      apply (set_at_perm (set_at pset i b) j a b Hjb).
    + destruct (Nat.eq_dec i j) as [-> | Hne].
      * rewrite nth_error_set_at_eq by now rewrite set_at_length. congruence.
      * rewrite nth_error_set_at_ne by exact Hne.
        now rewrite nth_error_set_at_eq.
    + rewrite nth_error_set_at_eq by now rewrite set_at_length. reflexivity.
    + intros k Hki Hkj. now rewrite !nth_error_set_at_ne.
Qed.

(** ** Cold start and the whole path from document to response *)

(** X19: [init] drops the error of [InitHandler]: when the collaborators
    deliver no document (transport error, status other than 200, read
    error, empty body or parse error), the function keeps serving with the
    zero handler, answering ["/"] with an empty index under the host of the
    request and every other path with not-found. *)
Theorem init_without_document (ext : external) :
  (forall c, ~ delivers ext c) ->
  init ext = zeroHandler
  /\ forall r, HandleImport (init ext) r
               = if String.eqb (URL_Path r) "/"
                 then ServeIndex (Request_Host r) []
                 else NotFound.
Proof.
  intro Hnone.
  assert (init ext = zeroHandler) as Hinit.
  { unfold init.
    destruct (InitHandler_cases ext zeroHandler) as [[c Hc] | (err & -> & _)];
      [now apply Hnone in Hc | reflexivity]. }
  split; [exact Hinit |].
  intro r. rewrite Hinit. reflexivity.
Qed.

Lemma init_without_document_witness :
  (forall c, ~ delivers {| Get := Some 404%Z; ReadAll := None; Unmarshal := None |} c)
  /\ HandleImport (init {| Get := Some 404%Z; ReadAll := None; Unmarshal := None |})
                  (request "/lib")
     = NotFound.
Proof.
  assert (forall c, ~ delivers {| Get := Some 404%Z; ReadAll := None; Unmarshal := None |} c)
    as Hnone by (intros c (H & _); discriminate H).
  split; [exact Hnone |].
  exact (proj2 (init_without_document _ Hnone) (request "/lib")).
Defined.

Lemma NoDup_map_inj {A B} (f : A -> B) (l : list A) :
  NoDup (map f l) -> forall a b, In a l -> In b l -> f a = f b -> a = b.
Proof.
  induction l as [| x l IH]; intros Hnd a b Ha Hb Hf; [contradiction |].
  simpl in Hnd. inversion Hnd as [| y m Hnotin Hnd']; subst.
  destruct Ha as [<- | Ha], Hb as [<- | Hb]; trivial.
  - exfalso. apply Hnotin. rewrite Hf. now apply in_map.
  - exfalso. apply Hnotin. rewrite <- Hf. now apply in_map.
  - now apply IH.
Qed.

(** X20: from document to response.  After a successful build on a
    handler without entries, from a document whose keys stay distinct once
    a trailing ["/"] is dropped, a request for the stored path of any key
    is answered with that key's own entry: import path the effective host
    followed by the path, empty subpath, the key's repository, display
    template and VCS, and the cache control of the document. *)
Theorem configured_key_resolves (ext : external) (c : config) (h h' : Handler)
        (k : string) (e : pathSpec) (rh : string) :
  delivers ext c -> InitHandler ext h = (inr tt, h') -> paths h = [] ->
  NoDup (map (fun kv => GoStrings.TrimSuffix (fst kv) "/") (Paths c)) ->
  In (k, e) (Paths c) ->
  HandleImport h' {| URL_Path := GoStrings.TrimSuffix k "/"; Request_Host := rh |}
  = ServeVanity ("public, max-age=" ++ format_d (cacheAgeOf c))
                ((if String.eqb (Host c) "" then rh else Host c)
                 ++ GoStrings.TrimSuffix k "/")
                "" (Repo e) (inferDisplay e) (storedVCS e).
Proof.
  intros Hc H Hempty Hkeys Hin.
  destruct (InitHandler_success ext h h' H) as (c' & Hc' & _ & Hall & ->).
  rewrite <- (delivers_unique ext c c' Hc Hc') in *.
  rewrite Hempty in *. simpl app in *.
  set (pset := GoSort.Sort less (map storedEntry (Paths c))).
  rewrite forallb_forall in Hall.
  pose proof (storedEntry_fields k e (Hall _ Hin)) as Hpc.
  assert (In (storedEntry (k, e)) pset) as Hinp.
  { apply (Permutation_in _ (Permutation_sym (Sort_perm _))).
    now apply (in_map storedEntry) in Hin. }
  assert (sorted pset) as Hs by apply Sort_sorted.
  assert (NoDup (map path pset)) as Hnd.
  { apply (Permutation_NoDup (l := map path (map storedEntry (Paths c)))).
    - apply Permutation_map. symmetry. apply Sort_perm.
    - rewrite map_map. exact Hkeys. }
  destruct (In_nth_error pset _ Hinp) as [j Hj].
  destruct (searchIndex_first pset j _ Hs Hj) as (e' & He' & Hp & _).
  assert (e' = storedEntry (k, e)) as ->.
  { apply (NoDup_map_inj path pset Hnd); trivial.
    now apply (nth_error_In pset (searchIndex pset (path (storedEntry (k, e))))). }
  pose proof (find_exact pset _ _ He' eq_refl) as Hfind.
  rewrite Hpc in Hfind at 2. simpl path in Hfind.
  unfold HandleImport, Handler_Host. simpl.
  fold pset. rewrite Hfind, Hpc. reflexivity.
Qed.

Lemma configured_key_resolves_witness :
  HandleImport (built nested) {| URL_Path := "/a/b"; Request_Host := "ignored.example" |}
  = ServeVanity "public, max-age=86400" "go.example.com/a/b" ""
                "https://github.com/org/b" (inferDisplay (onGithub "org/b")) "git".
Proof.
  refine (configured_key_resolves (served nested) nested empty (built nested)
            "/a/b" (onGithub "org/b") "ignored.example"
            (delivered nested) eq_refl eq_refl _ (or_intror (or_introl eq_refl))).
  repeat constructor; simpl; intuition discriminate.
Defined.

(** ** No stored prefix: index or not-found *)

(** X21: when no stored path is a byte prefix of the request path, [find]
    returns no entry and [HandleImport] answers the root path ["/"] with
    the index, listing every stored path behind the effective host (the
    configured host, or the host of the request when none is configured),
    and every other path with not-found. *)
Theorem HandleImport_no_stored_prefix (h : Handler) (r : Request) :
  (forall e, In e (paths h) -> GoStrings.HasPrefix (URL_Path r) (path e) = false) ->
  find (paths h) (URL_Path r) = (None, "")
  /\ HandleImport h r
     = if String.eqb (URL_Path r) "/"
       then ServeIndex (if String.eqb (host h) "" then Request_Host r else host h)
                       (map (fun e => (if String.eqb (host h) ""
                                       then Request_Host r else host h) ++ path e)
                            (paths h))
       else NotFound.
Proof.
  intro Hnone.
  assert (find (paths h) (URL_Path r) = (None, "")) as Hfind.
  { destruct (find (paths h) (URL_Path r)) as [[[k e] |] sub] eqn:E.
    - exfalso. destruct (find_sound _ _ _ _ _ E) as (Hk & Hcases).
      specialize (Hnone e (nth_error_In _ _ Hk)).
      destruct Hcases as [(Hp & _) | [HR | (HR & _)]].
      + rewrite <- Hp, HasPrefix_refl in Hnone. discriminate.
      + rewrite HR, HasPrefix_append in Hnone. discriminate.
      + rewrite HR, HasPrefix_append in Hnone. discriminate.
    - now rewrite (find_none _ _ _ E). }
  split; [exact Hfind |].
  unfold HandleImport, serveIndex, Handler_Host. now rewrite Hfind.
Qed.

Lemma HandleImport_no_stored_prefix_witness :
  (forall e, In e (paths published) ->
             GoStrings.HasPrefix (URL_Path (request "/")) (path e) = false)
  /\ HandleImport published (request "/")
     = ServeIndex "go.example.com" ["go.example.com/lib"]
  /\ HandleImport published (request "/other") = NotFound
  /\ HandleImport (built abcOnly) {| URL_Path := "/"; Request_Host := "vanity.example" |}
     = ServeIndex "go.example.com" ["go.example.com/abc"]
  /\ HandleImport {| host := ""; cacheControl := ""; paths := [entry "/lib"] |}
                  {| URL_Path := "/"; Request_Host := "vanity.example" |}
     = ServeIndex "vanity.example" ["vanity.example/lib"].
Proof.
  assert (forall p, GoStrings.HasPrefix p "/lib" = false ->
            forall e, In e [entry "/lib"] -> GoStrings.HasPrefix p (path e) = false)
    as Hlib by (intros p Hp e [<- | []]; exact Hp).
  assert (forall e, In e (paths (built abcOnly)) -> GoStrings.HasPrefix "/" (path e) = false)
    as Habc by (intros e [<- | []]; reflexivity).
  split; [exact (Hlib "/" eq_refl) | split; [| split; [| split]]].
  - exact (proj2 (HandleImport_no_stored_prefix published (request "/")
                    (Hlib "/" eq_refl))).
  - exact (proj2 (HandleImport_no_stored_prefix published (request "/other")
                    (Hlib "/other" eq_refl))).
  - exact (proj2 (HandleImport_no_stored_prefix (built abcOnly)
                    {| URL_Path := "/"; Request_Host := "vanity.example" |} Habc)).
  - exact (proj2 (HandleImport_no_stored_prefix
                    {| host := ""; cacheControl := ""; paths := [entry "/lib"] |}
                    {| URL_Path := "/"; Request_Host := "vanity.example" |}
                    (Hlib "/" eq_refl))).
Defined.
